(** * html-pdf-chrome: the navigation/completion core of [src/index.ts]

    A shallow embedding of [create], [generate], [beforeNavigate],
    [afterNavigate], [throwIfCanceled] and [launchChrome], together with
    the properties of the cancellation envelope, of the URL
    classification and of the session teardown.

    Objects that the code mutates through a reference (the options bag
    [myOptions]) live in a store indexed by locations.  Calls to the
    browser and to the launcher are promises that settle after a latency
    in milliseconds, fulfilling or rejecting.  The one-shot timer of
    [setTimeout] runs its callback while the program is suspended on
    such a promise, once the clock has reached its due time; awaiting an
    [async] function of this file suspends on no input or output, so no
    timer runs there.  A trace records the calls made, the promises
    settled, the timer armed, and what each guard read. *)

From Stdlib Require Import ZArith Ascii String List Lia Bool.
From Stdlib Require QArith_base.
From stdpp Require Import gmap fin_maps.

Import ListNotations.
Local Open Scope string_scope.
Local Open Scope list_scope.
Local Open Scope nat_scope.

(** ** Regular expressions, as far as [/^(https?|file|data):/i] needs them *)

Module RegExp.

(** The pattern language of the one regular expression literal of
    [generate]: characters, sequence, alternation, and [?]. *)
Inductive t : Type :=
| Chr (c : ascii)
| Seq (r1 r2 : t)
| Alt (r1 r2 : t)
| Opt (r : t).

(** [Canonicalize] of the [i] flag (without [u]): a character is
    compared through its upper-case form; characters outside [a-z]
    are their own canonical form. *)
Definition canonicalize (c : ascii) : ascii :=
  let n := nat_of_ascii c in
  if (97 <=? n)%nat && (n <=? 122)%nat then ascii_of_nat (n - 32) else c.

(** Backtracking matcher: every way in which [r] matches a prefix of
    [s], as the list of the remainders, in the order the engine tries
    them. *)
Fixpoint run (r : t) (s : string) : list string :=
  match r with
  | Chr c =>
      match s with
      | String a rest =>
          if Ascii.eqb (canonicalize a) (canonicalize c) then [rest] else []
      | EmptyString => []
      end
  | Seq r1 r2 => flat_map (run r2) (run r1 s)
  | Alt r1 r2 => run r1 s ++ run r2 s
  | Opt r1 => run r1 s ++ [s]
  end.

(** A literal word is the sequence of its characters. *)
Fixpoint word (c : ascii) (w : string) : t :=
  match w with
  | EmptyString => Chr c
  | String c' w' => Seq (Chr c) (word c' w')
  end.

(** Removing a word from the front of a string, comparing characters
    as the matcher does. *)
Fixpoint strip (w s : string) : option string :=
  match w, s with
  | EmptyString, _ => Some s
  | String c w', String a s' =>
      if Ascii.eqb (canonicalize a) (canonicalize c) then strip w' s' else None
  | String _ _, EmptyString => None
  end.

Definition all_ascii : list ascii := map ascii_of_nat (seq 0 256).

Definition some_left (l : list string) : bool :=
  match l with [] => false | _ :: _ => true end.

(** [re.test(s)] for a pattern anchored by [^]: only index 0 is tried. *)
Definition test_anchored (r : t) (s : string) : bool :=
  match run r s with
  | [] => false
  | _ :: _ => true
  end.

End RegExp.

(** [/^(https?|file|data):/i] *)
Definition url_scheme_re : RegExp.t :=
  RegExp.Seq
    (RegExp.Alt (RegExp.Seq (RegExp.word "h" "ttp") (RegExp.Opt (RegExp.Chr "s")))
       (RegExp.Alt (RegExp.word "f" "ile") (RegExp.word "d" "ata")))
    (RegExp.Chr ":").

(** Line 71 of [generate]:
    [/^(https?|file|data):/i.test(html) ? html : `data:text/html,${html}`] *)
Definition navigation_url (html : string) : string :=
  if RegExp.test_anchored url_scheme_re html then html
  else String.append "data:text/html," html.

(** The wording of the specification: the input starts with one of the
    scheme prefixes, compared without regard to case. *)
Definition lower (c : ascii) : ascii :=
  let n := nat_of_ascii c in
  if (65 <=? n)%nat && (n <=? 90)%nat then ascii_of_nat (n + 32) else c.

Fixpoint lowercase (s : string) : string :=
  match s with
  | EmptyString => EmptyString
  | String c s' => String (lower c) (lowercase s')
  end.

Definition scheme_prefixes : list string := ["http:"; "https:"; "file:"; "data:"].

Definition starts_with_scheme (html : string) : Prop :=
  exists p pre rest,
    In p scheme_prefixes /\ html = String.append pre rest /\ lowercase pre = p.

(** ** Data model *)

(** Numbers of the print options are only forwarded to the browser. *)
Definition JsNumber : Type := QArith_base.Q.

(** [ChromePrintOptions]: every field is optional. *)
Record ChromePrintOptions : Type := {
  landscape : option bool;
  displayHeaderFooter : option bool;
  printBackground : option bool;
  scale : option JsNumber;
  paperWidth : option JsNumber;
  paperHeight : option JsNumber;
  marginTop : option JsNumber;
  marginBottom : option JsNumber;
  marginLeft : option JsNumber;
  marginRight : option JsNumber;
  pageRanges : option string
}.

(** A promise of the outside world: it settles [latency] milliseconds
    after the call, either rejecting with an [Error] of the given
    message ([inl]) or fulfilling with a value ([inr]). *)
Record Promise (A : Type) : Type := {
  latency : nat;
  settles : string + A
}.
Arguments latency {A} _.
Arguments settles {A} _.

Record Cookie : Type := { cookie_name : string; cookie_value : string }.

(** The protocol client returned by [CDP(...)], restricted to the
    domain operations that [index.ts] uses. *)
Record Client : Type := {
  Network_clearBrowserCache : Promise unit;
  Network_setCookies : list Cookie -> Promise unit;
  Page_enable : Promise unit;
  Runtime_enable : Promise unit;
  Page_navigate : string -> Promise unit;
  Page_loadEventFired : Promise unit;
  Page_printToPDF : option ChromePrintOptions -> Promise string
}.

(** What [completionTrigger.wait(client)] resolves with, when it resolves
    with an object: [result.value] and [exceptionDetails]. *)
Record WaitResult : Type := {
  result_value : string;
  exceptionDetails : option string
}.

(** A completion trigger is an object with one method, [wait]; a
    trigger may resolve with [undefined] ([None]). *)
Record CompletionTrigger : Type := {
  wait : Client -> Promise (option WaitResult)
}.

(** Caller callbacks are opaque; only their identity is kept. *)
Definition Handler : Type := nat.

(** [CreateOptions], with the fields that [index.ts] reads or writes.
    A field that is absent from the object is [None]. *)
Record CreateOptions : Type := {
  host : option string;
  port : option Z;
  chromePath : option string;
  chromeFlags : option (list string);
  timeout : option Z;
  clearCache : option bool;
  runtimeConsoleHandler : option Handler;
  runtimeExceptionHandler : option Handler;
  cookies : option (list Cookie);
  completionTrigger : option CompletionTrigger;
  printOptions : option ChromePrintOptions;
  _canceled : option bool
}.

(** [{}] *)
Definition empty_options : CreateOptions :=
  {| host := None; port := None; chromePath := None; chromeFlags := None;
     timeout := None; clearCache := None; runtimeConsoleHandler := None;
     runtimeExceptionHandler := None; cookies := None;
     completionTrigger := None; printOptions := None; _canceled := None |}.

Definition set_canceled (b : bool) (o : CreateOptions) : CreateOptions :=
  {| host := host o; port := port o; chromePath := chromePath o;
     chromeFlags := chromeFlags o; timeout := timeout o;
     clearCache := clearCache o;
     runtimeConsoleHandler := runtimeConsoleHandler o;
     runtimeExceptionHandler := runtimeExceptionHandler o;
     cookies := cookies o; completionTrigger := completionTrigger o;
     printOptions := printOptions o; _canceled := Some b |}.

Definition set_port (p : Z) (o : CreateOptions) : CreateOptions :=
  {| host := host o; port := Some p; chromePath := chromePath o;
     chromeFlags := chromeFlags o; timeout := timeout o;
     clearCache := clearCache o;
     runtimeConsoleHandler := runtimeConsoleHandler o;
     runtimeExceptionHandler := runtimeExceptionHandler o;
     cookies := cookies o; completionTrigger := completionTrigger o;
     printOptions := printOptions o; _canceled := _canceled o |}.

(** Truthiness of the values that the code tests. *)
Definition truthy_flag (b : option bool) : bool :=
  match b with Some true => true | _ => false end.

Definition truthy_string (s : option string) : bool :=
  match s with Some (String _ _) => true | _ => false end.

Definition truthy_number (n : option Z) : bool :=
  match n with Some z => negb (z =? 0)%Z | None => false end.

Definition truthy_object {A : Type} (x : option A) : bool :=
  match x with Some _ => true | None => false end.

Record Tab : Type := { id : string }.

(** [LaunchedChrome] of chrome-launcher. *)
Record LaunchedChrome : Type := {
  chrome_port : Z;
  kill : Promise unit
}.

(** [CreateResult] holds the base64 text of the document. *)
Record CreateResult : Type := { data : string }.

(** The two libraries that [index.ts] imports: [launch] of
    chrome-launcher, and [CDP], [CDP.New], [CDP.Close] of
    chrome-remote-interface.  [CDP.New], [CDP] and [CDP.Close] receive an
    options object; the tab of [CDP] and the id of [CDP.Close] are the
    fields the call site adds to the copy. *)
Record World : Type := {
  launch : option Z -> option string -> list string -> Promise LaunchedChrome;
  CDP_New : CreateOptions -> Promise Tab;
  CDP : CreateOptions -> Tab -> Promise Client;
  CDP_Close : CreateOptions -> string -> Promise unit
}.

Definition DEFAULT_CHROME_FLAGS : list string :=
  ["--disable-gpu"; "--headless"; "--hide-scrollbars"].

(** ** Observable behaviour *)

(** The calls that leave [index.ts]. *)
Inductive Call : Type :=
| Launch (p : option Z) (path : option string) (flags : list string)
| New (h : option string) (p : option Z)
| Connect (h : option string) (p : option Z) (tab : string)
| ClearBrowserCache
| PageEnable
| RuntimeEnable
| ConsoleAPICalled (h : Handler)
| ExceptionThrown (h : Handler)
| SetCookies (cs : list Cookie)
| Navigate (url : string)
| LoadEventFired
| TriggerWait
| PrintToPDF (po : option ChromePrintOptions)
| ClientClose
| Close (h : option string) (p : option Z) (tab : string)
| Kill.

Inductive Event : Type :=
| Armed (delay : Z)               (* [setTimeout] was called *)
| Guard (canceled : bool)         (* [throwIfCanceled] read the flag *)
| Issued (c : Call)               (* a call was made *)
| Settled (c : Call) (ok : bool). (* its promise fulfilled or rejected *)

(** What [create] can throw. *)
Inductive Exn : Type :=
| Timeout                          (* [new Error('HtmlPdf.create() timed out.')] *)
| EvaluationError (value : string) (* [new Error(waitResult.result.value)] *)
| Rejection (msg : string).        (* a rejected promise of the outside world *)

Definition message (e : Exn) : string :=
  match e with
  | Timeout => "HtmlPdf.create() timed out."
  | EvaluationError v => v
  | Rejection m => m
  end.

(** ** The machine: store, clock, timer, trace *)

Abbreviation loc := positive.

Record State : Type := {
  store : gmap loc CreateOptions;  (* the objects reachable by reference *)
  clock : nat;                     (* milliseconds *)
  timer : option (nat * loc);      (* pending [setTimeout]: due time, and
                                      the object its callback writes to *)
  trace : list Event
}.

Inductive Result (A : Type) : Type :=
| Ok (a : A)
| Throw (e : Exn).
Arguments Ok {A} _.
Arguments Throw {A} _.

Definition M (A : Type) : Type := State -> Result A * State.

Definition ret {A : Type} (a : A) : M A := fun s => (Ok a, s).

Definition throw {A : Type} (e : Exn) : M A := fun s => (Throw e, s).

Definition bind {A B : Type} (m : M A) (f : A -> M B) : M B :=
  fun s =>
    match m s with
    | (Ok a, s') => f a s'
    | (Throw e, s') => (Throw e, s')
    end.

(** [try { body } finally { fin }]: [fin] always runs; when it throws,
    its exception replaces the outcome of [body]. *)
Definition try_finally {A : Type} (body : M A) (fin : M unit) : M A :=
  fun s =>
    match body s with
    | (r, s') =>
        match fin s' with
        | (Ok _, s'') => (r, s'')
        | (Throw e, s'') => (Throw e, s'')
        end
    end.

Declare Scope m_scope.
Delimit Scope m_scope with M.
Notation "x <- m ;; k" := (bind m (fun x => k))
  (at level 100, m at next level, right associativity) : m_scope.
Notation "m ;; k" := (bind m (fun _ => k))
  (at level 100, right associativity) : m_scope.
Local Open Scope m_scope.

Definition with_store (f : gmap loc CreateOptions -> gmap loc CreateOptions)
    (s : State) : State :=
  {| store := f (store s); clock := clock s; timer := timer s; trace := trace s |}.

Definition log (e : Event) (s : State) : State :=
  {| store := store s; clock := clock s; timer := timer s;
     trace := trace s ++ [e] |}.

Definition emit (e : Event) : M unit := fun s => (Ok tt, log e s).

(** Reading through a reference. *)
Definition deref (l : loc) : M CreateOptions :=
  fun s => (Ok (default empty_options (store s !! l)), s).

(** Assigning to a field of the referenced object. *)
Definition assign (l : loc) (f : CreateOptions -> CreateOptions) : M unit :=
  fun s => (Ok tt, with_store (alter f l) s).

(** [Object.assign({}, options)]: a new object with the fields of
    [options], or without any when [options] is [undefined]. *)
Definition Object_assign_new (options : option loc) : M loc :=
  fun s =>
    let o := match options with
             | Some l => default empty_options (store s !! l)
             | None => empty_options
             end in
    let l' := fresh (dom (store s)) in
    (Ok l', with_store (insert l' o) s).

(** Node's timers: a delay outside [1 .. 2^31-1] is replaced by 1. *)
Definition timer_delay (ms : Z) : nat :=
  if ((1 <=? ms) && (ms <=? 2147483647))%Z then Z.to_nat ms else 1.

(** [setTimeout(() => { myOptions._canceled = true; }, ms)] *)
Definition setTimeout_cancel (myOptions : loc) (ms : Z) : M unit :=
  fun s =>
    (Ok tt,
     {| store := store s; clock := clock s;
        timer := Some (clock s + timer_delay ms, myOptions);
        trace := trace s ++ [Armed ms] |}).

(** The event loop while the program is suspended on real input or
    output for [d] milliseconds: the clock advances, and a timer that
    has become due runs its callback. *)
Definition elapse (d : nat) (s : State) : State :=
  let now := clock s + d in
  match timer s with
  | Some (due, l) =>
      if due <=? now then
        {| store := alter (set_canceled true) l (store s); clock := now;
           timer := None; trace := trace s |}
      else
        {| store := store s; clock := now; timer := timer s; trace := trace s |}
  | None =>
      {| store := store s; clock := now; timer := None; trace := trace s |}
  end.

Definition sleep (d : nat) : M unit := fun s => (Ok tt, elapse d s).

(** The moment a promise settles. *)
Definition settle {A : Type} (c : Call) (p : Promise A) : M A :=
  match settles p with
  | inl msg => emit (Settled c false);; throw (Rejection msg)
  | inr v => emit (Settled c true);; ret v
  end.

(** [await p] for a promise of the outside world. *)
Definition await {A : Type} (c : Call) (p : Promise A) : M A :=
  sleep (latency p);; settle c p.

(** [await f(...)]: the call, then the suspension. *)
Definition call {A : Type} (c : Call) (p : Promise A) : M A :=
  emit (Issued c);; await c p.

(** [await Promise.all([p1, p2])], both calls already made: the
    promises settle in the order of their latencies; the first
    rejection rejects the join, and the join fulfils when the later of
    the two has fulfilled. *)
Definition await_all2 {A B : Type} (c1 : Call) (p1 : Promise A)
    (c2 : Call) (p2 : Promise B) : M (A * B) :=
  if latency p1 <=? latency p2 then
    sleep (latency p1);;
    a <- settle c1 p1;;
    sleep (latency p2 - latency p1);;
    b <- settle c2 p2;;
    ret (a, b)
  else
    sleep (latency p2);;
    b <- settle c2 p2;;
    sleep (latency p1 - latency p2);;
    a <- settle c1 p1;;
    ret (a, b).

(** ** The program *)

(** [throwIfCanceled], lines 144-148. *)
Definition throwIfCanceled (options : loc) : M unit :=
  o <- deref options;;
  emit (Guard (truthy_flag (_canceled o)));;
  if truthy_flag (_canceled o) then throw Timeout else ret tt.

(** [launchChrome], lines 156-164. *)
Definition launchChrome (W : World) (options : loc) : M LaunchedChrome :=
  o <- deref options;;
  let flags := match chromeFlags o with
               | Some fl => fl
               | None => DEFAULT_CHROME_FLAGS
               end in
  chrome <- call (Launch (port o) (chromePath o) flags)
              (launch W (port o) (chromePath o) flags);;
  assign options (set_port (chrome_port chrome));;
  ret chrome.

(** [beforeNavigate], lines 93-117. *)
Definition beforeNavigate (options : loc) (client : Client) : M unit :=
  throwIfCanceled options;;
  o <- deref options;;
  (if truthy_flag (clearCache o)
   then call ClearBrowserCache (Network_clearBrowserCache client)
   else ret tt);;
  emit (Issued PageEnable);;
  emit (Issued RuntimeEnable);;
  await_all2 PageEnable (Page_enable client)
    RuntimeEnable (Runtime_enable client);;
  o <- deref options;;
  (match runtimeConsoleHandler o with
   | Some h => throwIfCanceled options;; emit (Issued (ConsoleAPICalled h))
   | None => ret tt
   end);;
  o <- deref options;;
  (match runtimeExceptionHandler o with
   | Some h => throwIfCanceled options;; emit (Issued (ExceptionThrown h))
   | None => ret tt
   end);;
  o <- deref options;;
  (match cookies o with
   | Some cs =>
       throwIfCanceled options;;
       call (SetCookies cs) (Network_setCookies client cs)
   | None => ret tt
   end);;
  throwIfCanceled options.

(** [afterNavigate], lines 126-136. *)
Definition afterNavigate (options : loc) (client : Client) : M unit :=
  o <- deref options;;
  (match completionTrigger o with
   | Some trigger =>
       throwIfCanceled options;;
       waitResult <- call TriggerWait (wait trigger client);;
       match waitResult with
       | Some r =>
           if truthy_object (exceptionDetails r) then
             throwIfCanceled options;;
             throw (EvaluationError (result_value r))
           else ret tt
       | None => ret tt
       end
   | None => ret tt
   end);;
  throwIfCanceled options.

(** [generate], lines 65-84. *)
Definition generate (W : World) (html : string) (options : loc) (tab : Tab)
    : M CreateResult :=
  throwIfCanceled options;;
  o <- deref options;;
  client <- call (Connect (host o) (port o) (id tab)) (CDP W o tab);;
  try_finally
    (beforeNavigate options client;;
     let url := navigation_url html in
     emit (Issued (Navigate url));;
     emit (Issued LoadEventFired);;
     await_all2 (Navigate url) (Page_navigate client url)
       LoadEventFired (Page_loadEventFired client);;
     afterNavigate options client;;
     o <- deref options;;
     pdf <- call (PrintToPDF (printOptions o))
              (Page_printToPDF client (printOptions o));;
     throwIfCanceled options;;
     ret {| data := pdf |})
    (emit (Issued ClientClose)).

(** Lines 27-41 of [create]: the copy of the options, the timer, and
    the launch of a local browser. *)
Definition create_entry (W : World) (options : option loc)
    : M (loc * option LaunchedChrome) :=
  myOptions <- Object_assign_new options;;
  assign myOptions (set_canceled false);;
  o <- deref myOptions;;
  (match timeout o with
   | Some ms =>
       if (0 <=? ms)%Z then setTimeout_cancel myOptions ms else ret tt
   | None => ret tt
   end);;
  throwIfCanceled myOptions;;
  o <- deref myOptions;;
  chrome <- (if negb (truthy_string (host o)) && negb (truthy_number (port o))
             then
               throwIfCanceled myOptions;;
               c <- launchChrome W myOptions;;
               ret (Some c)
             else ret None);;
  ret (myOptions, chrome).

(** Lines 43-54 of [create]: the session, and the two [finally]. *)
Definition create_session (W : World) (html : string) (myOptions : loc)
    (chrome : option LaunchedChrome) : M CreateResult :=
  try_finally
    (o <- deref myOptions;;
     tab <- call (New (host o) (port o)) (CDP_New W o);;
     try_finally
       (generate W html myOptions tab)
       (o <- deref myOptions;;
        call (Close (host o) (port o) (id tab)) (CDP_Close W o (id tab))))
    (match chrome with
     | Some c => call Kill (kill c)
     | None => ret tt
     end).

(** [create], lines 26-55. *)
Definition create (W : World) (html : string) (options : option loc)
    : M CreateResult :=
  entry <- create_entry W options;;
  create_session W html (fst entry) (snd entry).

(** ** Sample worlds, for running the program *)

Definition fulfils {A : Type} (d : nat) (v : A) : Promise A :=
  {| latency := d; settles := inr v |}.

Definition rejects {A : Type} (d : nat) (msg : string) : Promise A :=
  {| latency := d; settles := inl msg |}.

(** A client whose operations fulfil after [d] milliseconds, printing
    apart, which settles as [print] says. *)
Definition sample_client (d : nat) (print : Promise string) : Client :=
  {| Network_clearBrowserCache := fulfils d tt;
     Network_setCookies := fun _ => fulfils d tt;
     Page_enable := fulfils d tt;
     Runtime_enable := fulfils d tt;
     Page_navigate := fun _ => fulfils d tt;
     Page_loadEventFired := fulfils d tt;
     Page_printToPDF := fun _ => print |}.

(** A world whose calls fulfil after [d] milliseconds, except for
    printing, [CDP.Close] and [chrome.kill], which settle as given; a
    launched browser listens on port 9222. *)
Definition sample_world (d : nat) (print : Promise string)
    (close kill_chrome : Promise unit) : World :=
  {| launch := fun _ _ _ =>
       fulfils d {| chrome_port := 9222; kill := kill_chrome |};
     CDP_New := fun _ => fulfils d {| id := "tab-1" |};
     CDP := fun _ _ => fulfils d (sample_client d print);
     CDP_Close := fun _ _ => close |}.

(** Every call fulfils after [d] milliseconds. *)
Definition steady_world (d : nat) : World :=
  sample_world d (fulfils d "JVBERi0=") (fulfils d tt) (fulfils d tt).

Definition with_timeout (ms : Z) (o : CreateOptions) : CreateOptions :=
  {| host := host o; port := port o; chromePath := chromePath o;
     chromeFlags := chromeFlags o; timeout := Some ms;
     clearCache := clearCache o;
     runtimeConsoleHandler := runtimeConsoleHandler o;
     runtimeExceptionHandler := runtimeExceptionHandler o;
     cookies := cookies o; completionTrigger := completionTrigger o;
     printOptions := printOptions o; _canceled := _canceled o |}.

Definition with_trigger (t : CompletionTrigger) (o : CreateOptions) : CreateOptions :=
  {| host := host o; port := port o; chromePath := chromePath o;
     chromeFlags := chromeFlags o; timeout := timeout o;
     clearCache := clearCache o;
     runtimeConsoleHandler := runtimeConsoleHandler o;
     runtimeExceptionHandler := runtimeExceptionHandler o;
     cookies := cookies o; completionTrigger := Some t;
     printOptions := printOptions o; _canceled := _canceled o |}.

(** A trigger whose page-side script raises after [d] milliseconds. *)
Definition raising_trigger (d : nat) (msg : string) : CompletionTrigger :=
  {| wait := fun _ =>
       fulfils d (Some {| result_value := msg; exceptionDetails := Some "Uncaught" |}) |}.

(** A world like [steady_world], except that [CDP.Close] rejects. *)
Definition close_fails_world (d : nat) (msg : string) : World :=
  sample_world d (fulfils d "JVBERi0=") (rejects d msg) (fulfils d tt).

Definition with_port (p : Z) (o : CreateOptions) : CreateOptions := set_port p o.

Definition with_host (hn : string) (o : CreateOptions) : CreateOptions :=
  {| host := Some hn; port := port o; chromePath := chromePath o;
     chromeFlags := chromeFlags o; timeout := timeout o;
     clearCache := clearCache o;
     runtimeConsoleHandler := runtimeConsoleHandler o;
     runtimeExceptionHandler := runtimeExceptionHandler o;
     cookies := cookies o; completionTrigger := completionTrigger o;
     printOptions := printOptions o; _canceled := _canceled o |}.

(** ** Requests *)

(** The state in which [create] is entered: the caller's heap, the
    clock at the start of the request, no timer pending, nothing
    observed yet. *)
Definition request_start (h : gmap loc CreateOptions) : State :=
  {| store := h; clock := 0; timer := None; trace := [] |}.

(** The options object the caller passes ([{}] stands for [undefined]). *)
Definition caller_options (h : gmap loc CreateOptions) (options : option loc)
    : CreateOptions :=
  match options with
  | Some l => default empty_options (h !! l)
  | None => empty_options
  end.

(** The object behind a reference. *)
Definition opts (l : loc) (s : State) : CreateOptions :=
  default empty_options (store s !! l).

(** ** Reasoning about runs *)

(** [wp m Q s]: running [m] from [s] ends in an outcome and a state
    that satisfy [Q]. *)
Definition wp {A : Type} (m : M A) (Q : Result A -> State -> Prop) (s : State)
    : Prop :=
  Q (fst (m s)) (snd (m s)).

(** Whether a timer due at [dl] has fired when the clock shows [now]. *)
Definition fired (dl : option nat) (now : nat) : bool :=
  match dl with
  | Some due => due <=? now
  | None => false
  end.

(** The fields of the options other than the cancellation flag. *)
Definition config (o : CreateOptions) :=
  (host o, port o, chromePath o, chromeFlags o, timeout o, clearCache o,
   runtimeConsoleHandler o, runtimeExceptionHandler o, cookies o,
   completionTrigger o, printOptions o).

(** The invariant of a request once [myOptions] exists and the timer
    has been armed (or not): the other objects of the heap [h] are
    untouched, [myOptions] keeps its configuration, its [_canceled]
    flag tells whether the timer has fired, and the pending timer, if
    any, is the one of this request. *)
Record Inv (my : loc) (dl : option nat) (h : gmap loc CreateOptions)
    (o0 : CreateOptions) (s : State) : Prop := {
  inv_frame : forall l, l <> my -> store s !! l = h !! l;
  inv_alloc : is_Some (store s !! my);
  inv_config : config (opts my s) = config o0;
  inv_flag : _canceled (opts my s) = Some (fired dl (clock s));
  inv_timer :
    timer s = if fired dl (clock s) then None
              else option_map (fun due => (due, my)) dl
}.

(** [emits phi m]: whatever the state, [m] only appends events, and
    each of them satisfies [phi]. *)
Definition emits {A : Type} (phi : Event -> Prop) (m : M A) : Prop :=
  forall s, exists t, trace (snd (m s)) = trace s ++ t /\ Forall phi t.

(** The calls that [generate] makes for the markup [html]. *)
Definition generate_call (html : string) (c : Call) : Prop :=
  match c with
  | Connect _ _ _ | ClearBrowserCache | PageEnable | RuntimeEnable
  | ConsoleAPICalled _ | ExceptionThrown _ | SetCookies _ | LoadEventFired
  | TriggerWait | PrintToPDF _ => True
  | Navigate u => u = navigation_url html
  | ClientClose => True
  | Launch _ _ _ | New _ _ | Close _ _ _ | Kill => False
  end.

Definition generate_event (html : string) (e : Event) : Prop :=
  match e with
  | Guard _ => True
  | Issued c => generate_call html c
  | Settled c _ => generate_call html c /\ c <> ClientClose
  | Armed _ => False
  end.

(** The events of lines 27-41 of [create]. *)
Definition entry_event (e : Event) : Prop :=
  match e with
  | Armed _ | Guard _ => True
  | Issued (Launch _ _ _) | Settled (Launch _ _ _) _ => True
  | _ => False
  end.

(** The events of lines 43-54 of [create]. *)
Definition session_event (html : string) (e : Event) : Prop :=
  match e with
  | Issued (New _ _) | Settled (New _ _) _
  | Issued (Close _ _ _) | Settled (Close _ _ _) _
  | Issued Kill | Settled Kill _ => True
  | _ => generate_event html e
  end.

(** ** Reading a trace *)

Definition is_guard_true (e : Event) : bool :=
  match e with Guard true => true | _ => false end.

Definition is_print (e : Event) : bool :=
  match e with Issued (PrintToPDF _) => true | _ => false end.

Definition is_teardown_failure (e : Event) : bool :=
  match e with
  | Settled (Close _ _ _) false | Settled Kill false => true
  | _ => false
  end.

(** Some guard has seen the flag set. *)
Definition observed_canceled (tr : list Event) : bool := existsb is_guard_true tr.

(** [CDP.Close] or [chrome.kill] rejected. *)
Definition teardown_failed (tr : list Event) : bool := existsb is_teardown_failure tr.

(** No print-to-PDF call is issued after a guard has seen the flag set. *)
Fixpoint no_print_after_cancel (tr : list Event) : bool :=
  match tr with
  | [] => true
  | e :: tr' =>
      if is_guard_true e then negb (existsb is_print tr')
      else no_print_after_cancel tr'
  end.

(** The due time of the timer that [create] arms for these options. *)
Definition deadline (o : CreateOptions) : option nat :=
  match timeout o with
  | Some ms => if (0 <=? ms)%Z then Some (timer_delay ms) else None
  | None => None
  end.

(** What the guards guarantee at the end of a computation that was
    entered with no cancellation observed and no teardown failure. *)
Definition guards_ok (dl : option nat) {A : Type} (r : Result A) (s : State)
    : Prop :=
  no_print_after_cancel (trace s) = true /\
  (observed_canceled (trace s) = true -> fired dl (clock s) = true) /\
  match r with
  | Ok _ =>
      observed_canceled (trace s) = false /\ teardown_failed (trace s) = false
  | Throw e =>
      (e = Timeout -> observed_canceled (trace s) = true) /\
      (observed_canceled (trace s) = true -> teardown_failed (trace s) = false ->
       e = Timeout) /\
      (forall v, e = EvaluationError v -> observed_canceled (trace s) = false)
  end.

(** A computation of the request that respects the guards. *)
Definition guarded_run (my : loc) (dl : option nat) (h : gmap loc CreateOptions)
    (o0 : CreateOptions) {A : Type} (m : M A) : Prop :=
  forall s,
    Inv my dl h o0 s ->
    observed_canceled (trace s) = false ->
    teardown_failed (trace s) = false ->
    wp m (fun r s' => Inv my dl h o0 s' /\ guards_ok dl r s') s.

(** A [finally] block of the request: it runs whatever the outcome [r]
    of the block it follows, and replaces it only by its own failure. *)
Definition teardown_run (my : loc) (dl : option nat) (h : gmap loc CreateOptions)
    (o0 : CreateOptions) (fin : M unit) : Prop :=
  forall (A : Type) (r : Result A) s,
    Inv my dl h o0 s ->
    guards_ok dl r s ->
    wp fin (fun rf s' =>
              Inv my dl h o0 s' /\
              guards_ok dl (match rf with Ok _ => r | Throw e => Throw e end) s') s.

(** ** The entry of [create], read off the caller's options *)

(** The test of line 38: [!myOptions.host && !myOptions.port]. *)
Definition launches (o : CreateOptions) : bool :=
  negb (truthy_string (host o)) && negb (truthy_number (port o)).

(** The test of line 31: [myOptions.timeout >= 0]. *)
Definition armed_events (o : CreateOptions) : list Event :=
  match timeout o with
  | Some ms => if (0 <=? ms)%Z then [Armed ms] else []
  | None => []
  end.

(** [options.chromeFlags || DEFAULT_CHROME_FLAGS] *)
Definition launch_flags (o : CreateOptions) : list string :=
  match chromeFlags o with
  | Some fl => fl
  | None => DEFAULT_CHROME_FLAGS
  end.

(** The call [launchChrome] makes for the options [o]. *)
Definition launch_call (o : CreateOptions) : Call :=
  Launch (port o) (chromePath o) (launch_flags o).

Definition launch_promise (W : World) (o : CreateOptions) : Promise LaunchedChrome :=
  launch W (port o) (chromePath o) (launch_flags o).

(** ** The order of navigation and completion trigger *)

Definition is_wait_issued (e : Event) : bool :=
  match e with Issued TriggerWait => true | _ => false end.

Definition is_navigate_ok (e : Event) : bool :=
  match e with Settled (Navigate _) true => true | _ => false end.

Definition is_load_ok (e : Event) : bool :=
  match e with Settled LoadEventFired true => true | _ => false end.

(** Both the navigate command and the load event have fulfilled. *)
Definition loaded (tr : list Event) : bool :=
  existsb is_navigate_ok tr && existsb is_load_ok tr.

(** Wherever the trace shows a call of [wait], both have fulfilled before. *)
Definition wait_ok (tr : list Event) : Prop :=
  forall pre post, tr = pre ++ Issued TriggerWait :: post -> loaded pre = true.

Definition ordered {A : Type} (m : M A) : Prop :=
  forall s, wait_ok (trace s) -> wait_ok (trace (snd (m s))).

(** ** Evaluation failures of the completion trigger *)

(** [wait] resolves, whatever the client, with an outcome that carries
    [exceptionDetails] and the value [v]. *)
Definition raises (trigger : CompletionTrigger) (v : string) : Prop :=
  forall client, exists r,
    settles (wait trigger client) = inr (Some r) /\
    truthy_object (exceptionDetails r) = true /\
    result_value r = v.

Definition is_wait_settled (e : Event) : bool :=
  match e with Settled TriggerWait true => true | _ => false end.

(** [wait] has returned. *)
Definition waited (tr : list Event) : bool := existsb is_wait_settled tr.

(** A print-to-PDF call has been issued. *)
Definition printed (tr : list Event) : bool := existsb is_print tr.

(** A state of the request before the trigger has been consulted. *)
Definition before_wait (my : loc) (dl : option nat) (h : gmap loc CreateOptions)
    (o0 : CreateOptions) (s : State) : Prop :=
  Inv my dl h o0 s /\
  observed_canceled (trace s) = false /\ teardown_failed (trace s) = false /\
  printed (trace s) = false /\ waited (trace s) = false.

(** The outcome of a request whose trigger raises [v]. *)
Definition trigger_failure (v : string) {A : Type} (r : Result A) (s : State)
    : Prop :=
  (exists e, r = Throw e) /\
  printed (trace s) = false /\
  (waited (trace s) = true -> observed_canceled (trace s) = false ->
   teardown_failed (trace s) = false -> r = Throw (EvaluationError v)).

(** ** Teardown *)

(** What [create] rejects with when the generation sequence has thrown
    [e]: the rejection of [chrome.kill] if it rejects, else the
    rejection of [CDP.Close] if it rejects, else [e]. *)
Definition after_teardown (close : Promise unit) (chrome : option LaunchedChrome)
    (e : Exn) : Exn :=
  let after_close := match settles close with
                     | inl msg => Rejection msg
                     | inr _ => e
                     end in
  match chrome with
  | Some c => match settles (kill c) with
              | inl msg => Rejection msg
              | inr _ => after_close
              end
  | None => after_close
  end.

(** ** Resources: the browser process, the tab, the client *)

Inductive Phase : Type := Absent | Live | Released.

Record Resources : Type := {
  res_process : Phase;   (* the browser launched by this request *)
  res_tab : Phase;       (* the tab of [CDP.New] *)
  res_client : Phase     (* the client of [CDP(...)] *)
}.

Definition idle : Resources :=
  {| res_process := Absent; res_tab := Absent; res_client := Absent |}.

Definition is_live (p : Phase) : bool :=
  match p with Live => true | _ => false end.

Definition is_released (p : Phase) : bool :=
  match p with Released => true | _ => false end.

Definition acquire (p : Phase) : option Phase :=
  match p with Absent => Some Live | _ => None end.

Definition release (p : Phase) : option Phase :=
  match p with Live => Some Released | _ => None end.

(** How an event moves the resources; [None] is a violation of the
    discipline: a resource acquired twice, released twice or without
    having been acquired, the tab closed while the client is open, the
    process killed while the tab or the client is open, or anything
    released after the process was killed. *)
Definition res_step (q : Resources) (e : Event) : option Resources :=
  match e with
  | Settled (Launch _ _ _) true =>
      match acquire (res_process q) with
      | Some p => Some {| res_process := p; res_tab := res_tab q;
                          res_client := res_client q |}
      | None => None
      end
  | Issued Kill =>
      if is_live (res_tab q) || is_live (res_client q) then None
      else match release (res_process q) with
           | Some p => Some {| res_process := p; res_tab := res_tab q;
                               res_client := res_client q |}
           | None => None
           end
  | Settled (New _ _) true =>
      match acquire (res_tab q) with
      | Some p => Some {| res_process := res_process q; res_tab := p;
                          res_client := res_client q |}
      | None => None
      end
  | Issued (Close _ _ _) =>
      if is_live (res_client q) || is_released (res_process q) then None
      else match release (res_tab q) with
           | Some p => Some {| res_process := res_process q; res_tab := p;
                               res_client := res_client q |}
           | None => None
           end
  | Settled (Connect _ _ _) true =>
      match acquire (res_client q) with
      | Some p => Some {| res_process := res_process q; res_tab := res_tab q;
                          res_client := p |}
      | None => None
      end
  | Issued ClientClose =>
      if is_released (res_process q) then None
      else match release (res_client q) with
           | Some p => Some {| res_process := res_process q; res_tab := res_tab q;
                               res_client := p |}
           | None => None
           end
  | _ => Some q
  end.

Fixpoint res_run (q : Resources) (tr : list Event) : option Resources :=
  match tr with
  | [] => Some q
  | e :: tr' =>
      match res_step q e with
      | Some q' => res_run q' tr'
      | None => None
      end
  end.

(** The events that move a resource. *)
Definition is_lifecycle (e : Event) : bool :=
  match e with
  | Settled (Launch _ _ _) true | Issued Kill
  | Settled (New _ _) true | Issued (Close _ _ _)
  | Settled (Connect _ _ _) true | Issued ClientClose => true
  | _ => false
  end.

(** Nothing is left open. *)
Definition all_settled (q : Resources) : bool :=
  negb (is_live (res_process q)) && negb (is_live (res_tab q))
  && negb (is_live (res_client q)).

Definition is_launch_ok (e : Event) : bool :=
  match e with Settled (Launch _ _ _) true => true | _ => false end.

Definition is_kill_issued (e : Event) : bool :=
  match e with Issued Kill => true | _ => false end.

Definition is_new_ok (e : Event) : bool :=
  match e with Settled (New _ _) true => true | _ => false end.

Definition is_close_issued (e : Event) : bool :=
  match e with Issued (Close _ _ _) => true | _ => false end.

Definition is_connect_ok (e : Event) : bool :=
  match e with Settled (Connect _ _ _) true => true | _ => false end.

Definition is_client_close (e : Event) : bool :=
  match e with Issued ClientClose => true | _ => false end.

Definition count_events (f : Event -> bool) (tr : list Event) : nat :=
  length (List.filter f tr).

Definition tick (f : Event -> bool) (e : Event) : nat := if f e then 1 else 0.

(** 1 once a resource has been acquired, and 1 once it has been released. *)
Definition acquired (p : Phase) : nat :=
  match p with Absent => 0 | _ => 1 end.

Definition released (p : Phase) : nat :=
  match p with Released => 1 | _ => 0 end.

(** ** The time a generation takes when nothing interrupts it *)

Definition fulfilled {A : Type} (p : Promise A) : option A :=
  match settles p with
  | inr v => Some v
  | inl _ => None
  end.

(** The time of a suspension on [p], when [p] fulfils. *)
Definition waiting {A : Type} (p : Promise A) : option nat :=
  match settles p with
  | inr _ => Some (latency p)
  | inl _ => None
  end.

(** [beforeNavigate] without interruption. *)
Definition before_time (client : Client) (o : CreateOptions) : option nat :=
  match (if truthy_flag (clearCache o)
         then waiting (Network_clearBrowserCache client) else Some 0),
        waiting (Page_enable client), waiting (Runtime_enable client),
        (match cookies o with
         | Some cs => waiting (Network_setCookies client cs)
         | None => Some 0
         end)
  with
  | Some a, Some b, Some c, Some d => Some (a + Nat.max b c + d)
  | _, _, _, _ => None
  end.

(** [afterNavigate] without interruption and without evaluation failure. *)
Definition after_time (client : Client) (o : CreateOptions) : option nat :=
  match completionTrigger o with
  | Some trigger =>
      match settles (wait trigger client) with
      | inr (Some r) =>
          if truthy_object (exceptionDetails r) then None
          else Some (latency (wait trigger client))
      | inr None => Some (latency (wait trigger client))
      | inl _ => None
      end
  | None => Some 0
  end.

(** [generate] without interruption: the time until the last guard, and
    the document. *)
Definition generate_course (W : World) (html : string) (o : CreateOptions)
    (tab : Tab) : option (nat * string) :=
  match fulfilled (CDP W o tab) with
  | Some client =>
      match before_time client o,
            waiting (Page_navigate client (navigation_url html)),
            waiting (Page_loadEventFired client),
            after_time client o,
            fulfilled (Page_printToPDF client (printOptions o))
      with
      | Some b, Some n, Some l, Some a, Some pdf =>
          Some (latency (CDP W o tab) + b + Nat.max n l + a
                + latency (Page_printToPDF client (printOptions o)), pdf)
      | _, _, _, _, _ => None
      end
  | None => None
  end.

(** The session of [create] without interruption, for the options [o]
    of [myOptions] and the launched browser, if any: the time from
    [CDP.New] to the last guard of [generate], and the document;
    [None] when some call rejects, the teardown included, or when the
    trigger reports an evaluation failure. *)
Definition session_course (W : World) (html : string) (o : CreateOptions)
    (chrome : option LaunchedChrome) : option (nat * string) :=
  match fulfilled (CDP_New W o) with
  | Some tab =>
      match generate_course W html o tab,
            fulfilled (CDP_Close W o (id tab)),
            (match chrome with Some c => fulfilled (kill c) | None => Some tt end)
      with
      | Some (g, pdf), Some _, Some _ => Some (latency (CDP_New W o) + g, pdf)
      | _, _, _ => None
      end
  | None => None
  end.

(** The whole request without interruption: the time from the start to
    the last guard of [generate] (the total generation time), and the
    document. *)
Definition uninterrupted (W : World) (html : string) (oc : CreateOptions)
    : option (nat * string) :=
  if launches oc then
    match fulfilled (launch_promise W oc) with
    | Some c =>
        match session_course W html
                (set_canceled false (set_port (chrome_port c) oc)) (Some c) with
        | Some (g, pdf) => Some (latency (launch_promise W oc) + g, pdf)
        | None => None
        end
    | None => None
    end
  else session_course W html (set_canceled false oc) None.

(** The libraries do not read the [_canceled] field of the options. *)
Definition flag_blind (W : World) : Prop :=
  forall o b,
    CDP_New W (set_canceled b o) = CDP_New W o /\
    (forall tab, CDP W (set_canceled b o) tab = CDP W o tab) /\
    (forall i, CDP_Close W (set_canceled b o) i = CDP_Close W o i).

(** [staged d a m]: run under the invariant, [m] either stops at a
    guard that sees the flag set, no later than [d] milliseconds after
    it started, or returns [a] after exactly [d] milliseconds. *)
Definition staged (my : loc) (dl : option nat) (h : gmap loc CreateOptions)
    (o0 : CreateOptions) {A : Type} (d : nat) (a : A) (m : M A) : Prop :=
  forall s,
    Inv my dl h o0 s ->
    wp m (fun r s' =>
            Inv my dl h o0 s' /\
            ((r = Throw Timeout /\ fired dl (clock s') = true /\
              clock s' <= clock s + d) \/
             (r = Ok a /\ clock s' = clock s + d))) s.

(** [checked d a m]: moreover, [m] returns only if the flag is not set
    at that moment. *)
Definition checked (my : loc) (dl : option nat) (h : gmap loc CreateOptions)
    (o0 : CreateOptions) {A : Type} (d : nat) (a : A) (m : M A) : Prop :=
  forall s,
    Inv my dl h o0 s ->
    wp m (fun r s' =>
            Inv my dl h o0 s' /\
            ((r = Throw Timeout /\ fired dl (clock s') = true /\
              clock s' <= clock s + d) \/
             (r = Ok a /\ clock s' = clock s + d /\
              fired dl (clock s') = false))) s.

(** * Proofs *)

(** ** Rules of [wp] *)

Section WpRules.
Context {A B : Type}.

Lemma wp_ret (a : A) Q s : Q (Ok a) s -> wp (ret a) Q s.
Proof. exact (fun H => H). Qed.

Lemma wp_throw (e : Exn) (Q : Result A -> State -> Prop) s :
  Q (Throw e) s -> wp (throw e) Q s.
Proof. exact (fun H => H). Qed.

Lemma wp_bind (m : M A) (f : A -> M B) Q s :
  wp m (fun r s' => match r with
                    | Ok a => wp (f a) Q s'
                    | Throw e => Q (Throw e) s'
                    end) s ->
  wp (bind m f) Q s.
Proof.
  unfold wp, bind. destruct (m s) as [[a|e] s']; simpl; auto.
Qed.

Lemma wp_try_finally (body : M A) (fin : M unit) Q s :
  wp body (fun r s' =>
    wp fin (fun rf s'' => match rf with
                          | Ok _ => Q r s''
                          | Throw e => Q (Throw e) s''
                          end) s') s ->
  wp (try_finally body fin) Q s.
Proof.
  unfold wp, try_finally. destruct (body s) as [r s']; simpl.
  destruct (fin s') as [[u|e] s'']; simpl; auto.
Qed.

Lemma wp_wand (m : M A) (Q Q' : Result A -> State -> Prop) s :
  wp m Q s -> (forall r s', Q r s' -> Q' r s') -> wp m Q' s.
Proof. unfold wp. auto. Qed.

Lemma wp_conj (m : M A) (Q Q' : Result A -> State -> Prop) s :
  wp m Q s -> wp m Q' s -> wp m (fun r s' => Q r s' /\ Q' r s') s.
Proof. unfold wp. auto. Qed.
End WpRules.

Lemma wp_emit e Q s : Q (Ok tt) (log e s) -> wp (emit e) Q s.
Proof. exact (fun H => H). Qed.

Lemma wp_sleep d Q s : Q (Ok tt) (elapse d s) -> wp (sleep d) Q s.
Proof. exact (fun H => H). Qed.

Lemma wp_deref l Q s : Q (Ok (opts l s)) s -> wp (deref l) Q s.
Proof. exact (fun H => H). Qed.

Lemma wp_assign l f Q s :
  Q (Ok tt) (with_store (alter f l) s) -> wp (assign l f) Q s.
Proof. exact (fun H => H). Qed.

Lemma wp_settle {A : Type} c (p : Promise A) Q s :
  (forall msg, settles p = inl msg ->
     Q (Throw (Rejection msg)) (log (Settled c false) s)) ->
  (forall v, settles p = inr v -> Q (Ok v) (log (Settled c true) s)) ->
  wp (settle c p) Q s.
Proof.
  intros Hl Hr. unfold settle. destruct (settles p) as [msg|v]; [apply Hl | apply Hr]; reflexivity.
Qed.

Lemma wp_call {A : Type} c (p : Promise A) Q s :
  (forall msg, settles p = inl msg ->
     Q (Throw (Rejection msg))
       (log (Settled c false) (elapse (latency p) (log (Issued c) s)))) ->
  (forall v, settles p = inr v ->
     Q (Ok v) (log (Settled c true) (elapse (latency p) (log (Issued c) s)))) ->
  wp (call c p) Q s.
Proof.
  intros Hl Hr. unfold call, await.
  apply wp_bind, wp_emit, wp_bind, wp_sleep, wp_settle; assumption.
Qed.

(** ** Projections of the states that the primitives build *)

Lemma trace_elapse d s : trace (elapse d s) = trace s.
Proof.
  unfold elapse. destruct (timer s) as [[due l]|]; [destruct (due <=? _)|]; reflexivity.
Qed.

Lemma clock_elapse d s : clock (elapse d s) = clock s + d.
Proof.
  unfold elapse. destruct (timer s) as [[due l]|]; [destruct (due <=? _)|]; reflexivity.
Qed.

Lemma trace_log e s : trace (log e s) = trace s ++ [e].
Proof. reflexivity. Qed.

Lemma clock_log e s : clock (log e s) = clock s.
Proof. reflexivity. Qed.

Lemma opts_log l e s : opts l (log e s) = opts l s.
Proof. reflexivity. Qed.

Lemma trace_with_store f s : trace (with_store f s) = trace s.
Proof. reflexivity. Qed.

Lemma clock_with_store f s : clock (with_store f s) = clock s.
Proof. reflexivity. Qed.

Create Rewrite HintDb st.
#[export] Hint Rewrite trace_elapse clock_elapse trace_log clock_log opts_log
  trace_with_store clock_with_store : st.

Lemma fired_mono dl a b : a <= b -> fired dl a = true -> fired dl b = true.
Proof.
  destruct dl as [due|]; simpl; [|discriminate].
  intros Hab H. apply Nat.leb_le in H. apply Nat.leb_le. lia.
Qed.

(** ** The invariant is kept by every primitive step *)

Section Invariant.
Variables (my : loc) (dl : option nat) (h : gmap loc CreateOptions)
  (o0 : CreateOptions).

Lemma Inv_log e s : Inv my dl h o0 s -> Inv my dl h o0 (log e s).
Proof. intros [H1 H2 H3 H4 H5]. split; assumption. Qed.

Lemma Inv_elapse d s : Inv my dl h o0 s -> Inv my dl h o0 (elapse d s).
Proof.
  intros [H1 H2 H3 H4 H5]. unfold opts in *.
  destruct H2 as [o Ho]. rewrite Ho in *. simpl in *.
  destruct (fired dl (clock s)) eqn:Hf.
  - (* already fired: nothing is pending *)
    assert (Hf' : fired dl (clock s + d) = true)
      by (eapply fired_mono; [|exact Hf]; lia).
    unfold elapse. rewrite H5.
    split; unfold opts; simpl; rewrite ?Hf', ?Ho; simpl; eauto.
  - destruct dl as [due|]; simpl in *.
    + unfold elapse. rewrite H5. destruct (due <=? clock s + d) eqn:Hd.
      * split; unfold opts; simpl; rewrite ?Hd.
        -- intros l Hl. rewrite lookup_alter_ne; auto.
        -- rewrite lookup_alter_eq, Ho. eauto.
        -- rewrite lookup_alter_eq, Ho. exact H3.
        -- rewrite lookup_alter_eq, Ho. reflexivity.
        -- reflexivity.
      * split; unfold opts; simpl; rewrite ?Hd, ?Ho; simpl; eauto.
    + unfold elapse. rewrite H5.
      split; unfold opts; simpl; rewrite ?Ho; simpl; eauto.
Qed.

Lemma Inv_set_port p s :
  Inv my dl h o0 s ->
  Inv my dl h (set_port p o0) (with_store (alter (set_port p) my) s).
Proof.
  intros [H1 H2 H3 H4 H5]. unfold opts in *.
  destruct H2 as [o Ho]. rewrite Ho in *. simpl in *.
  split; unfold opts; simpl.
  - intros l Hl. rewrite lookup_alter_ne; auto.
  - rewrite lookup_alter_eq, Ho. eauto.
  - rewrite lookup_alter_eq, Ho. unfold config in *. simpl. congruence.
  - rewrite lookup_alter_eq, Ho. exact H4.
  - exact H5.
Qed.

Lemma Inv_canceled s :
  Inv my dl h o0 s ->
  truthy_flag (_canceled (opts my s)) = fired dl (clock s).
Proof. intros [_ _ _ H _]. rewrite H. simpl. destruct (fired _ _); reflexivity. Qed.

(** [throwIfCanceled] under the invariant: the guard reads whether
    the timer has fired. *)
Lemma wp_throwIfCanceled Q s :
  Inv my dl h o0 s ->
  (fired dl (clock s) = true -> Q (Throw Timeout) (log (Guard true) s)) ->
  (fired dl (clock s) = false -> Q (Ok tt) (log (Guard false) s)) ->
  wp (throwIfCanceled my) Q s.
Proof.
  intros HI Ht Hf. unfold throwIfCanceled.
  apply wp_bind, wp_deref, wp_bind, wp_emit.
  rewrite (Inv_canceled _ HI).
  destruct (fired dl (clock s)); [apply wp_throw | apply wp_ret]; auto.
Qed.
End Invariant.

(** ** What a computation can emit *)

Section Emits.
Context {A B : Type}.
Variable phi : Event -> Prop.

Lemma emits_ret (a : A) : emits phi (ret a).
Proof. intros s. exists []. simpl. rewrite app_nil_r. auto. Qed.

Lemma emits_throw (e : Exn) : emits phi (@throw A e).
Proof. intros s. exists []. simpl. rewrite app_nil_r. auto. Qed.

Lemma emits_bind (m : M A) (f : A -> M B) :
  emits phi m -> (forall a, emits phi (f a)) -> emits phi (bind m f).
Proof.
  intros Hm Hf s. unfold bind. destruct (Hm s) as (t1 & E1 & F1).
  destruct (m s) as [[a|e] s1]; simpl in *.
  - destruct (Hf a s1) as (t2 & E2 & F2). exists (t1 ++ t2).
    rewrite E2, E1, app_assoc. split; [reflexivity|]. apply Forall_app; auto.
  - exists t1. auto.
Qed.

Lemma emits_try_finally (body : M A) (fin : M unit) :
  emits phi body -> emits phi fin -> emits phi (try_finally body fin).
Proof.
  intros Hb Hf s. unfold try_finally. destruct (Hb s) as (t1 & E1 & F1).
  destruct (body s) as [r s1]; simpl in *.
  destruct (Hf s1) as (t2 & E2 & F2).
  exists (t1 ++ t2). split; [|apply Forall_app; auto].
  destruct (fin s1) as [[u|e] s2]; simpl in *; rewrite E2, E1, app_assoc; reflexivity.
Qed.

Lemma emits_emit e : phi e -> emits phi (emit e).
Proof. intros H s. exists [e]. simpl. auto. Qed.

Lemma emits_sleep d : emits phi (sleep d).
Proof. intros s. exists []. simpl. rewrite trace_elapse, app_nil_r. auto. Qed.

Lemma emits_deref l : emits phi (deref l).
Proof. intros s. exists []. simpl. rewrite app_nil_r. auto. Qed.

Lemma emits_assign l f : emits phi (assign l f).
Proof. intros s. exists []. simpl. rewrite app_nil_r. auto. Qed.

End Emits.

Lemma emits_settle {A : Type} phi c (p : Promise A) :
  (forall b, phi (Settled c b)) -> emits phi (settle c p).
Proof.
  intros H. unfold settle. destruct (settles p).
  - apply emits_bind; [apply emits_emit, H | intros; apply emits_throw].
  - apply emits_bind; [apply emits_emit, H | intros; apply emits_ret].
Qed.

Lemma emits_call {A : Type} phi c (p : Promise A) :
  phi (Issued c) -> (forall b, phi (Settled c b)) -> emits phi (call c p).
Proof.
  intros Hi Hs. unfold call, await.
  apply emits_bind; [apply emits_emit, Hi | intros _].
  apply emits_bind; [apply emits_sleep | intros _]. apply emits_settle, Hs.
Qed.

Lemma emits_await_all2 {A B : Type} phi c1 (p1 : Promise A) c2 (p2 : Promise B) :
  (forall b, phi (Settled c1 b)) -> (forall b, phi (Settled c2 b)) ->
  emits phi (await_all2 c1 p1 c2 p2).
Proof.
  intros H1 H2. unfold await_all2. destruct (latency p1 <=? latency p2);
    repeat first [ apply emits_bind; [|intros ?] | apply emits_sleep
                 | apply emits_ret | apply emits_settle; assumption ].
Qed.

Lemma emits_throwIfCanceled phi l :
  (forall b, phi (Guard b)) -> emits phi (throwIfCanceled l).
Proof.
  intros H. unfold throwIfCanceled.
  apply emits_bind; [apply emits_deref | intros o].
  apply emits_bind; [apply emits_emit, H | intros _].
  destruct (truthy_flag _); [apply emits_throw | apply emits_ret].
Qed.

Lemma emits_weaken {A : Type} (phi psi : Event -> Prop) (m : M A) :
  (forall e, phi e -> psi e) -> emits phi m -> emits psi m.
Proof.
  intros H Hm s. destruct (Hm s) as (t & E & F). exists t. split; [exact E|].
  eapply Forall_impl; eauto.
Qed.

(** From a run that starts with an empty trace. *)
Lemma emits_from_start {A : Type} phi (m : M A) h e :
  emits phi m -> In e (trace (snd (m (request_start h)))) -> phi e.
Proof.
  intros Hm Hin. destruct (Hm (request_start h)) as (t & E & F).
  rewrite E in Hin. simpl in Hin. rewrite Forall_forall in F. 
  apply F. apply list_elem_of_In. exact Hin.
Qed.

Ltac emits_step :=
  first
    [ apply emits_bind; [|intros ?]
    | apply emits_try_finally
    | apply emits_ret
    | apply emits_throw
    | apply emits_sleep
    | apply emits_deref
    | apply emits_assign
    | apply emits_emit
    | apply emits_call
    | apply emits_await_all2
    | apply emits_throwIfCanceled
    | apply emits_settle ].

Ltac emits_go :=
  repeat first
    [ emits_step
    | match goal with
      | |- emits _ (if ?b then _ else _) => destruct b
      | |- emits _ (match ?x with _ => _ end) => destruct x
      end ].

Lemma launchChrome_emits W l : emits entry_event (launchChrome W l).
Proof. unfold launchChrome. emits_go; simpl; auto. Qed.

Lemma beforeNavigate_emits html l client :
  emits (generate_event html) (beforeNavigate l client).
Proof. unfold beforeNavigate. emits_go; simpl; auto. Qed.

Lemma afterNavigate_emits html l client :
  emits (generate_event html) (afterNavigate l client).
Proof. unfold afterNavigate. emits_go; simpl; auto. Qed.

Lemma generate_emits W html l tab :
  emits (generate_event html) (generate W html l tab).
Proof.
  unfold generate. emits_go;
    try apply beforeNavigate_emits; try apply afterNavigate_emits; simpl; auto.
Qed.

Lemma create_entry_emits W options : emits entry_event (create_entry W options).
Proof.
  unfold create_entry.
  apply emits_bind; [intros s; exists []; simpl; rewrite app_nil_r; auto | intros my].
  apply emits_bind; [apply emits_assign | intros _].
  apply emits_bind; [apply emits_deref | intros o].
  apply emits_bind.
  { destruct (timeout o) as [ms|]; [destruct (0 <=? ms)%Z|]; try apply emits_ret.
    intros s. exists [Armed ms]. simpl. split; [reflexivity|]. repeat constructor. }
  intros _. emits_go; try apply launchChrome_emits; simpl; auto.
Qed.

Lemma create_session_emits W html my chrome :
  emits (session_event html) (create_session W html my chrome).
Proof.
  unfold create_session. emits_go; simpl; auto.
Qed.

Lemma create_emits W html options :
  emits (fun e => entry_event e \/ session_event html e) (create W html options).
Proof.
  unfold create. apply emits_bind.
  - eapply emits_weaken; [|apply create_entry_emits]. auto.
  - intros [my chrome]. eapply emits_weaken; [|apply create_session_emits]. auto.
Qed.

(** ** The URL passed to the navigation command *)

Module RegExpFacts.
Import RegExp.

Lemma all_ascii_complete a : In a all_ascii.
Proof.
  unfold all_ascii. rewrite <- (ascii_nat_embedding a).
  apply in_map, in_seq. pose proof (nat_ascii_bounded a). lia.
Qed.

(** Comparing through upper case or through lower case is the same. *)
Lemma canonicalize_lower a c :
  Ascii.eqb (canonicalize a) (canonicalize c) = Ascii.eqb (lower a) (lower c).
Proof.
  assert (H : forallb (fun x => forallb (fun y =>
                Bool.eqb (Ascii.eqb (canonicalize x) (canonicalize y))
                         (Ascii.eqb (lower x) (lower y))) all_ascii) all_ascii
              = true) by (vm_compute; reflexivity).
  rewrite forallb_forall in H. specialize (H a (all_ascii_complete a)).
  rewrite forallb_forall in H. specialize (H c (all_ascii_complete c)).
  apply Bool.eqb_prop in H. exact H.
Qed.

Lemma run_word c w s :
  run (word c w) s =
  match strip (String c w) s with Some r => [r] | None => [] end.
Proof.
  revert c s. induction w as [|c' w IH]; intros c s.
  - simpl. destruct s as [|a s]; [reflexivity|].
    destruct (Ascii.eqb _ _); reflexivity.
  - change (word c (String c' w)) with (Seq (Chr c) (word c' w)).
    simpl run. destruct s as [|a s]; [reflexivity|].
    simpl strip. destruct (Ascii.eqb _ _); simpl; [|reflexivity].
    rewrite IH, app_nil_r. reflexivity.
Qed.

Lemma run_Chr c s :
  run (Chr c) s = match strip (String c "") s with Some r => [r] | None => [] end.
Proof. exact (run_word c "" s). Qed.

Lemma strip_app p q s :
  strip (String.append p q) s =
  match strip p s with Some r => strip q r | None => None end.
Proof.
  revert s. induction p as [|c p IH]; intros s; simpl; [reflexivity|].
  destruct s as [|a s]; [destruct (String.append p q); reflexivity|].
  destruct (Ascii.eqb _ _); [apply IH | reflexivity].
Qed.

(** [strip] finds exactly the prefixes that lower-case to the word. *)
Lemma strip_Some p s r :
  lowercase p = p ->
  strip p s = Some r <-> exists pre, s = String.append pre r /\ lowercase pre = p.
Proof.
  revert s. induction p as [|c p IH]; intros s Hp.
  - simpl. split.
    + intros [= ->]. exists "". auto.
    + intros (pre & -> & Hpre). destruct pre; [reflexivity | discriminate].
  - simpl in Hp. injection Hp as Hc Hp'.
    destruct s as [|a s]; simpl.
    + split; [discriminate|]. intros (pre & E & Hpre).
      destruct pre; simpl in *; discriminate.
    + rewrite canonicalize_lower, Hc. split.
      * destruct (Ascii.eqb_spec (lower a) c) as [Ha|Ha]; [|discriminate].
        intros H. apply (IH s Hp') in H as (pre & -> & Hpre).
        exists (String a pre). simpl. split; [reflexivity|]. congruence.
      * intros (pre & E & Hpre). destruct pre as [|a' pre]; [discriminate|].
        simpl in E, Hpre. injection E as -> ->. injection Hpre as Ha Hpre.
        rewrite Ha, Ascii.eqb_refl. apply (IH _ Hp'). eauto.
Qed.

Lemma some_left_app l1 l2 : some_left (l1 ++ l2) = some_left l1 || some_left l2.
Proof. destruct l1; reflexivity. Qed.

Lemma some_left_strip w s :
  some_left (match strip w s with Some r => [r] | None => [] end) =
  match strip w s with Some _ => true | None => false end.
Proof. destruct (strip w s); reflexivity. Qed.

(** After [https?], the colon. *)
Lemma run_http_colon html :
  some_left (flat_map (run (Chr ":"))
               (flat_map (run (Opt (Chr "s"))) (run (word "h" "ttp") html))) =
  match strip "http" html with
  | Some r =>
      match strip ":" r with Some _ => true | None => false end
      || match strip "s" r with
         | Some r' => match strip ":" r' with Some _ => true | None => false end
         | None => false
         end
  | None => false
  end.
Proof.
  rewrite run_word. destruct (strip "http" html) as [r|]; [|reflexivity].
  cbn [flat_map]. rewrite app_nil_r.
  change (run (Opt (Chr "s")) r) with (run (Chr "s") r ++ [r]).
  rewrite flat_map_app, some_left_app. cbn [flat_map]. rewrite app_nil_r.
  rewrite (run_Chr ":" r), (run_Chr "s" r), some_left_strip.
  destruct (strip "s" r) as [r'|]; cbn [flat_map].
  - rewrite app_nil_r, (run_Chr ":" r'), some_left_strip. apply orb_comm.
  - apply orb_comm.
Qed.

Lemma run_word_colon c w html :
  some_left (flat_map (run (Chr ":")) (run (word c w) html)) =
  match strip (String c w) html with
  | Some r => match strip ":" r with Some _ => true | None => false end
  | None => false
  end.
Proof.
  rewrite run_word. destruct (strip (String c w) html) as [r|]; [|reflexivity].
  cbn [flat_map]. rewrite app_nil_r, (run_Chr ":" r), some_left_strip. reflexivity.
Qed.

Lemma test_url_scheme html :
  test_anchored url_scheme_re html =
  existsb (fun p => match strip p html with Some _ => true | None => false end)
    scheme_prefixes.
Proof.
  unfold scheme_prefixes. cbn [existsb].
  change "http:" with (String.append "http" ":").
  change "https:" with (String.append "http" (String.append "s" ":")).
  change "file:" with (String.append "file" ":").
  change "data:" with (String.append "data" ":").
  rewrite !strip_app.
  change (test_anchored url_scheme_re html) with
    (some_left (flat_map (run (Chr ":"))
       (flat_map (run (Opt (Chr "s"))) (run (word "h" "ttp") html)
        ++ (run (word "f" "ile") html ++ run (word "d" "ata") html)))).
  rewrite !flat_map_app, !some_left_app, run_http_colon, !run_word_colon.
  destruct (strip "http" html) as [r1|]; destruct (strip "file" html) as [r2|];
    destruct (strip "data" html) as [r3|];
    rewrite ?strip_app, ?orb_false_r, ?orb_false_l, ?orb_assoc;
    try destruct (strip "s" r1); reflexivity.
Qed.
End RegExpFacts.

Lemma scheme_prefixes_lower p : In p scheme_prefixes -> lowercase p = p.
Proof. intros [<-|[<-|[<-|[<-|[]]]]]; reflexivity. Qed.

Lemma test_starts_with_scheme html :
  RegExp.test_anchored url_scheme_re html = true <-> starts_with_scheme html.
Proof.
  rewrite RegExpFacts.test_url_scheme, existsb_exists. unfold starts_with_scheme.
  split.
  - intros (p & Hin & Hp). destruct (RegExp.strip p html) as [r|] eqn:E; [|discriminate].
    apply RegExpFacts.strip_Some in E as (pre & -> & Hpre);
      [|apply scheme_prefixes_lower, Hin].
    exists p, pre, r. auto.
  - intros (p & pre & rest & Hin & -> & Hpre). exists p. split; [exact Hin|].
    assert (H : RegExp.strip p (String.append pre rest) = Some rest)
      by (apply RegExpFacts.strip_Some; [apply scheme_prefixes_lower, Hin | eauto]).
    rewrite H. reflexivity.
Qed.

(** C2. Whatever the run, a navigation command that [create] issues
    carries the input itself when the input starts with [http:],
    [https:], [file:] or [data:] in any letter case, and
    ['data:text/html,'] followed by the input otherwise. *)
Theorem navigate_url_classified W html options h u :
  In (Issued (Navigate u)) (trace (snd (create W html options (request_start h)))) ->
  (starts_with_scheme html /\ u = html) \/
  (~ starts_with_scheme html /\ u = String.append "data:text/html," html).
Proof.
  intros Hin.
  apply (emits_from_start _ _ _ _ (create_emits W html options)) in Hin.
  assert (Hu : u = navigation_url html) by (destruct Hin as [[]|Hin]; exact Hin).
  subst u. unfold navigation_url.
  destruct (RegExp.test_anchored url_scheme_re html) eqn:E.
  - left. split; [apply test_starts_with_scheme, E | reflexivity].
  - right. split; [|reflexivity]. intros H. apply test_starts_with_scheme in H. congruence.
Qed.

Lemma navigate_url_classified_witness :
  (starts_with_scheme "<h1>hi</h1>" /\ "data:text/html,<h1>hi</h1>" = "<h1>hi</h1>") \/
  (~ starts_with_scheme "<h1>hi</h1>" /\
   "data:text/html,<h1>hi</h1>" = String.append "data:text/html," "<h1>hi</h1>").
Proof.
  apply (navigate_url_classified (steady_world 5) "<h1>hi</h1>" (Some 1%positive)
           {[1%positive := empty_options]} "data:text/html,<h1>hi</h1>").
  vm_compute. tauto.
Defined.

(** ** Guards: what is observed, and what is thrown *)

Lemma observed_canceled_snoc tr e :
  observed_canceled (tr ++ [e]) = observed_canceled tr || is_guard_true e.
Proof. unfold observed_canceled. rewrite existsb_app. simpl. rewrite orb_false_r. reflexivity. Qed.

Lemma teardown_failed_snoc tr e :
  teardown_failed (tr ++ [e]) = teardown_failed tr || is_teardown_failure e.
Proof. unfold teardown_failed. rewrite existsb_app. simpl. rewrite orb_false_r. reflexivity. Qed.

Lemma no_print_after_cancel_snoc tr e :
  no_print_after_cancel (tr ++ [e]) =
  no_print_after_cancel tr && (negb (observed_canceled tr) || negb (is_print e)).
Proof.
  induction tr as [|a tr IH]; simpl.
  - destruct (is_guard_true e); reflexivity.
  - destruct (is_guard_true a); simpl.
    + rewrite existsb_app. simpl. rewrite orb_false_r, negb_orb. reflexivity.
    + exact IH.
Qed.

Lemma no_print_after_cancel_quiet tr :
  observed_canceled tr = false -> no_print_after_cancel tr = true.
Proof.
  induction tr as [|a tr IH]; simpl; [reflexivity|].
  destruct (is_guard_true a); simpl; [discriminate | exact IH].
Qed.

#[export] Hint Rewrite observed_canceled_snoc teardown_failed_snoc
  no_print_after_cancel_snoc : st.

Create HintDb inv discriminated.
#[export] Hint Resolve Inv_log Inv_elapse Inv_set_port : inv.

Ltac wp_step :=
  lazymatch goal with
  | |- wp (bind _ _) _ _ => apply wp_bind
  | |- wp (ret _) _ _ => apply wp_ret
  | |- wp (throw _) _ _ => apply wp_throw
  | |- wp (try_finally _ _) _ _ => apply wp_try_finally
  | |- wp (emit _) _ _ => apply wp_emit
  | |- wp (sleep _) _ _ => apply wp_sleep
  | |- wp (deref _) _ _ => apply wp_deref
  | |- wp (assign _ _) _ _ => apply wp_assign
  | |- wp (settle _ _) _ _ => apply wp_settle; [intros ?msg ?Hrej | intros ?v ?Hful]
  | |- wp (call _ _) _ _ => apply wp_call; [intros ?msg ?Hrej | intros ?v ?Hful]
  | |- wp (await_all2 _ _ _ _) _ _ => unfold await_all2
  | |- wp (throwIfCanceled _) _ _ =>
      eapply wp_throwIfCanceled;
      [solve [eauto 20 with inv] | intros ?Hfired | intros ?Hfired]
  | |- wp (if ?b then _ else _) _ _ => destruct b eqn:?
  | |- wp (match ?x with _ => _ end) _ _ => destruct x eqn:?
  end.

Ltac wp_go := repeat wp_step.

Lemma settled_ok_no_failure c : is_teardown_failure (Settled c true) = false.
Proof. destruct c; reflexivity. Qed.

Lemma fired_after dl s d :
  fired dl (clock s) = true -> fired dl (clock s + d) = true.
Proof. apply fired_mono. lia. Qed.

Section Guards.
Variables (my : loc) (dl : option nat) (h : gmap loc CreateOptions)
  (o0 : CreateOptions).

Local Abbreviation guarded := (guarded_run my dl h o0).
Local Abbreviation teardown := (teardown_run my dl h o0).

Lemma guarded_ret {A : Type} (a : A) : guarded (ret a).
Proof.
  intros s HI Hq Ht. apply wp_ret. split; [exact HI|].
  unfold guards_ok. rewrite Hq, Ht, no_print_after_cancel_quiet by exact Hq.
  repeat split; discriminate.
Qed.

Lemma guarded_throw {A : Type} (e : Exn) : e <> Timeout -> guarded (@throw A e).
Proof.
  intros He s HI Hq Ht. apply wp_throw. split; [exact HI|].
  unfold guards_ok. rewrite Hq, no_print_after_cancel_quiet by exact Hq.
  repeat split; try discriminate. intros; contradiction.
Qed.

Lemma guarded_bind {A B : Type} (m : M A) (f : A -> M B) :
  guarded m -> (forall a, guarded (f a)) -> guarded (bind m f).
Proof.
  intros Hm Hf s HI Hq Ht. apply wp_bind.
  eapply wp_wand; [apply Hm; assumption|].
  intros [a|e] s' [HI' HG]; [|split; assumption].
  destruct HG as (_ & _ & Hq' & Ht'). apply Hf; assumption.
Qed.

Lemma guarded_emit e :
  is_guard_true e = false -> is_teardown_failure e = false -> guarded (emit e).
Proof.
  intros H1 H2 s HI Hq Ht. apply wp_emit. split; [apply Inv_log, HI|].
  unfold guards_ok. autorewrite with st.
  rewrite Hq, Ht, H1, H2, no_print_after_cancel_quiet by exact Hq.
  repeat split; discriminate.
Qed.

Lemma guarded_sleep d : guarded (sleep d).
Proof.
  intros s HI Hq Ht. apply wp_sleep. split; [apply Inv_elapse, HI|].
  unfold guards_ok. autorewrite with st.
  rewrite Hq, Ht, no_print_after_cancel_quiet by exact Hq.
  repeat split; discriminate.
Qed.

Lemma guarded_deref l : guarded (deref l).
Proof.
  intros s HI Hq Ht. apply wp_deref. split; [exact HI|].
  unfold guards_ok. rewrite Hq, Ht, no_print_after_cancel_quiet by exact Hq.
  repeat split; discriminate.
Qed.

Lemma guarded_settle {A : Type} c (p : Promise A) :
  is_teardown_failure (Settled c false) = false -> guarded (settle c p).
Proof.
  intros Hc. unfold settle. destruct (settles p).
  - apply guarded_bind; [apply guarded_emit; [reflexivity | exact Hc] | intros _].
    apply guarded_throw. discriminate.
  - apply guarded_bind;
      [apply guarded_emit; [reflexivity | apply settled_ok_no_failure] | intros _].
    apply guarded_ret.
Qed.

Lemma guarded_call {A : Type} c (p : Promise A) :
  is_teardown_failure (Settled c false) = false -> guarded (call c p).
Proof.
  intros Hc. unfold call, await.
  apply guarded_bind; [apply guarded_emit; reflexivity | intros _].
  apply guarded_bind; [apply guarded_sleep | intros _].
  apply guarded_settle, Hc.
Qed.

Lemma guarded_await_all2 {A B : Type} c1 (p1 : Promise A) c2 (p2 : Promise B) :
  is_teardown_failure (Settled c1 false) = false ->
  is_teardown_failure (Settled c2 false) = false ->
  guarded (await_all2 c1 p1 c2 p2).
Proof.
  intros H1 H2. unfold await_all2. destruct (latency p1 <=? latency p2);
    repeat first [ apply guarded_bind; [|intros ?] | apply guarded_sleep
                 | apply guarded_ret | apply guarded_settle; assumption ].
Qed.

Lemma guarded_throwIfCanceled : guarded (throwIfCanceled my).
Proof.
  intros s HI Hq Ht. eapply wp_throwIfCanceled; [exact HI | |]; intros Hf;
    (split; [apply Inv_log, HI|]); unfold guards_ok; autorewrite with st;
    rewrite Hq, Ht, no_print_after_cancel_quiet by exact Hq; simpl;
    repeat split; auto; discriminate.
Qed.

(** The [finally] blocks. *)
Lemma teardown_emit e :
  is_guard_true e = false -> is_print e = false -> is_teardown_failure e = false ->
  teardown (emit e).
Proof.
  intros H1 H2 H3 A r s HI (Hn & Hf & Hr). apply wp_emit.
  split; [apply Inv_log, HI|]. unfold guards_ok. autorewrite with st.
  rewrite Hn, H1, H2, H3, !orb_false_r, orb_true_r. repeat split; auto.
Qed.

Lemma teardown_call c (p : Promise unit) :
  is_print (Issued c) = false ->
  is_teardown_failure (Settled c false) = true ->
  teardown (call c p).
Proof.
  intros H1 H2 A r s HI (Hn & Hf & Hr). apply wp_call; intros x Hx;
    (split; [auto with inv|]); unfold guards_ok; autorewrite with st;
    rewrite Hn, H1, ?H2, ?settled_ok_no_failure; simpl;
    rewrite ?orb_false_r, ?orb_true_r.
  - repeat split; auto; try discriminate. intros Ho. apply fired_after; auto.
  - repeat split; auto. intros Ho. apply fired_after; auto.
Qed.

Lemma teardown_deref_bind l (f : CreateOptions -> M unit) :
  (forall o, teardown (f o)) -> teardown (bind (deref l) f).
Proof.
  intros Hf A r s HI HG. apply wp_bind, wp_deref. apply Hf; assumption.
Qed.

Lemma teardown_ret : teardown (ret tt).
Proof. intros A r s HI HG. apply wp_ret. auto. Qed.

Lemma guarded_try_finally {A : Type} (body : M A) (fin : M unit) :
  guarded body -> teardown fin -> guarded (try_finally body fin).
Proof.
  intros Hb Hf s HI Hq Ht. apply wp_try_finally.
  eapply wp_wand; [apply Hb; assumption|].
  intros r s' [HI' HG]. eapply wp_wand; [apply Hf; eassumption|].
  intros [u|e] s'' [HI'' HG']; split; assumption.
Qed.
End Guards.

Ltac guarded_step :=
  first
    [ apply guarded_throwIfCanceled
    | apply guarded_call; reflexivity
    | apply guarded_await_all2; reflexivity
    | apply guarded_bind; [|intros ?]
    | apply guarded_try_finally
    | apply guarded_ret
    | apply guarded_sleep
    | apply guarded_deref
    | apply guarded_emit; reflexivity
    | apply guarded_throw; discriminate
    | apply teardown_emit; reflexivity
    | apply teardown_call; reflexivity
    | apply teardown_deref_bind; intros ?
    | apply teardown_ret ].

Ltac guarded_go :=
  repeat first
    [ guarded_step
    | match goal with
      | |- guarded_run _ _ _ _ (if ?b then _ else _) => destruct b
      | |- guarded_run _ _ _ _ (match ?x with _ => _ end) => destruct x
      | |- teardown_run _ _ _ _ (match ?x with _ => _ end) => destruct x
      end ].

Lemma beforeNavigate_guarded my dl h o0 client :
  guarded_run my dl h o0 (beforeNavigate my client).
Proof. unfold beforeNavigate. guarded_go. Qed.

Lemma afterNavigate_guarded my dl h o0 client :
  guarded_run my dl h o0 (afterNavigate my client).
Proof. unfold afterNavigate. guarded_go. Qed.

Lemma generate_guarded W html my dl h o0 tab :
  guarded_run my dl h o0 (generate W html my tab).
Proof.
  unfold generate. guarded_go.
Qed.

Lemma create_session_guarded W html my dl h o0 chrome :
  guarded_run my dl h o0 (create_session W html my chrome).
Proof.
  unfold create_session. guarded_go. 
Qed.

(** ** The entry of [create] *)

Lemma wp_Object_assign_new options Q s :
  Q (Ok (fresh (dom (store s))))
    (with_store (insert (fresh (dom (store s)))
                   (caller_options (store s) options)) s) ->
  wp (Object_assign_new options) Q s.
Proof. exact (fun H => H). Qed.

Lemma wp_setTimeout_cancel my ms Q s :
  Q (Ok tt)
    {| store := store s; clock := clock s;
       timer := Some (clock s + timer_delay ms, my);
       trace := trace s ++ [Armed ms] |} ->
  wp (setTimeout_cancel my ms) Q s.
Proof. exact (fun H => H). Qed.

Lemma timer_delay_pos ms : 1 <= timer_delay ms.
Proof.
  unfold timer_delay. destruct ((1 <=? ms)%Z && (ms <=? 2147483647)%Z) eqn:E; [|lia].
  apply andb_prop in E as [E _]. apply Z.leb_le in E. lia.
Qed.

Lemma deadline_not_fired_at_start o : fired (deadline o) 0 = false.
Proof.
  unfold deadline. destruct (timeout o) as [ms|]; [|reflexivity].
  destruct (0 <=? ms)%Z; [|reflexivity]. simpl.
  apply Nat.leb_gt. pose proof (timer_delay_pos ms). lia.
Qed.

(** The state after lines 27-35: [myOptions] is allocated, its flag is
    cleared, and the timer is armed when the timeout is not negative. *)
Lemma entry_armed {A : Type} options h (k : loc -> M A) Q :
  let oc := caller_options h options in
  let my := fresh (dom h) in
  (forall s,
     Inv my (deadline oc) h oc s -> clock s = 0 -> trace s = armed_events oc ->
     wp (k my) Q s) ->
  wp (myOptions <- Object_assign_new options;;
      assign myOptions (set_canceled false);;
      o <- deref myOptions;;
      match timeout o with
      | Some ms =>
          if (0 <=? ms)%Z then setTimeout_cancel myOptions ms else ret tt
      | None => ret tt
      end;;
      k myOptions)
    Q (request_start h).
Proof.
  intros oc my HQ.
  assert (Hfresh : h !! my = None) by apply not_elem_of_dom, is_fresh.
  assert (Hmy : forall f cl tm tr,
             opts my {| store := alter f my (<[my:=oc]> h); clock := cl;
                        timer := tm; trace := tr |} = f oc).
  { intros. unfold opts. simpl. rewrite lookup_alter_eq, lookup_insert_eq. reflexivity. }
  assert (HI : forall tm tr,
             tm = (if fired (deadline oc) 0 then None
                   else option_map (fun due => (due, my)) (deadline oc)) ->
             Inv my (deadline oc) h oc
               {| store := alter (set_canceled false) my (<[my:=oc]> h);
                  clock := 0; timer := tm; trace := tr |}).
  { intros tm tr Htm. split; simpl.
    - intros l Hl. rewrite lookup_alter_ne, lookup_insert_ne by auto. reflexivity.
    - rewrite lookup_alter_eq, lookup_insert_eq. simpl. eauto.
    - rewrite Hmy. reflexivity.
    - rewrite Hmy. simpl. rewrite deadline_not_fired_at_start. reflexivity.
    - exact Htm. }
  apply wp_bind, wp_Object_assign_new. fold my. apply wp_bind, wp_assign.
  apply wp_bind, wp_deref. unfold with_store. simpl. rewrite Hmy. simpl.
  fold oc. apply wp_bind.
  pose proof (deadline_not_fired_at_start oc) as Hnf.
  unfold deadline, armed_events in *.
  destruct (timeout oc) as [ms|]; [destruct (0 <=? ms)%Z eqn:Ems|].
  - apply wp_setTimeout_cancel.
    apply HQ; try reflexivity. apply HI. rewrite Hnf. reflexivity.
  - apply wp_ret.
    apply HQ; try reflexivity. apply HI. reflexivity.
  - apply wp_ret.
    apply HQ; try reflexivity. apply HI. reflexivity.
Qed.

Lemma Inv_fields my dl h o0 s :
  Inv my dl h o0 s ->
  host (opts my s) = host o0 /\ port (opts my s) = port o0 /\
  chromePath (opts my s) = chromePath o0 /\
  chromeFlags (opts my s) = chromeFlags o0 /\
  timeout (opts my s) = timeout o0 /\ clearCache (opts my s) = clearCache o0 /\
  runtimeConsoleHandler (opts my s) = runtimeConsoleHandler o0 /\
  runtimeExceptionHandler (opts my s) = runtimeExceptionHandler o0 /\
  cookies (opts my s) = cookies o0 /\
  completionTrigger (opts my s) = completionTrigger o0 /\
  printOptions (opts my s) = printOptions o0.
Proof.
  intros [_ _ H _ _]. unfold config in H. injection H. intros. repeat split; assumption.
Qed.

Ltac conj_split := repeat match goal with |- _ /\ _ => split end.

(** Lines 27-41, run from the start of a request. *)
Lemma create_entry_run W options h :
  let oc := caller_options h options in
  let my := fresh (dom h) in
  let dl := deadline oc in
  let p := launch_promise W oc in
  wp (create_entry W options)
    (fun r s =>
       if launches oc then
         clock s = latency p /\
         match settles p with
         | inr c =>
             r = Ok (my, Some c) /\
             Inv my dl h (set_port (chrome_port c) oc) s /\
             trace s = armed_events oc ++
                       [Guard false; Guard false; Issued (launch_call oc);
                        Settled (launch_call oc) true]
         | inl msg =>
             r = Throw (Rejection msg) /\
             Inv my dl h oc s /\
             trace s = armed_events oc ++
                       [Guard false; Guard false; Issued (launch_call oc);
                        Settled (launch_call oc) false]
         end
       else
         r = Ok (my, None) /\ clock s = 0 /\ Inv my dl h oc s /\
         trace s = armed_events oc ++ [Guard false])
    (request_start h).
Proof.
  intros oc my dl p. unfold create_entry. apply entry_armed. fold oc my dl.
  intros s HI Hc Ht.
  pose proof (deadline_not_fired_at_start oc) as Hnf. fold dl in Hnf.
  destruct (Inv_fields _ _ _ _ _ HI) as (Hh & Hp & Hpath & Hfl & _).
  rewrite <- Hc in Hnf.
  cbv beta. wp_step. wp_step; [exfalso; congruence|].
  wp_step. wp_step. rewrite opts_log, Hh, Hp. fold (launches oc).
  destruct (launches oc) eqn:El.
  - wp_step. wp_step.
    wp_step; [exfalso; simpl in *; congruence|].
    wp_step. unfold launchChrome. wp_step. wp_step. wp_step.
    rewrite !opts_log, Hp, Hpath, Hfl. fold (launch_flags oc) (launch_call oc) (launch_promise W oc).
    fold p. wp_step.
    + rewrite Hrej. autorewrite with st. rewrite Hc, Ht, <- !app_assoc. simpl.
      conj_split; auto 10 with inv.
    + wp_go. rewrite Hful. autorewrite with st. rewrite Hc, Ht, <- !app_assoc. simpl.
      conj_split; auto 10 with inv.
  - wp_go. autorewrite with st. rewrite Ht. conj_split; auto with inv.
Qed.

(** ** The whole of [create] *)

Lemma wp_emits {A : Type} phi (m : M A) s :
  emits phi m ->
  wp m (fun _ s' => exists t, trace s' = trace s ++ t /\ Forall phi t) s.
Proof. intros H. exact (H s). Qed.

Lemma observed_canceled_armed o l :
  observed_canceled (armed_events o ++ l) = observed_canceled l.
Proof.
  unfold armed_events. destruct (timeout o) as [ms|]; [destruct (0 <=? ms)%Z|]; reflexivity.
Qed.

Lemma teardown_failed_armed o l :
  teardown_failed (armed_events o ++ l) = teardown_failed l.
Proof.
  unfold armed_events. destruct (timeout o) as [ms|]; [destruct (0 <=? ms)%Z|]; reflexivity.
Qed.

Lemma no_print_after_cancel_armed o l :
  no_print_after_cancel (armed_events o ++ l) = no_print_after_cancel l.
Proof.
  unfold armed_events. destruct (timeout o) as [ms|]; [destruct (0 <=? ms)%Z|]; reflexivity.
Qed.

(** A run of [create] keeps the invariant of the request and respects
    the guards. *)
Lemma create_guards W html options h :
  let oc := caller_options h options in
  let my := fresh (dom h) in
  let dl := deadline oc in
  wp (create W html options)
    (fun r s => (exists o1, Inv my dl h o1 s) /\ guards_ok dl r s)
    (request_start h).
Proof.
  intros oc my dl. unfold create. apply wp_bind.
  eapply wp_wand; [apply create_entry_run|]. fold oc my dl.
  intros r s. destruct (launches oc).
  - intros [Hc H]. destruct (settles (launch_promise W oc)) as [msg|c].
    + destruct H as (-> & HI & Ht). split; [eauto|].
      unfold guards_ok. rewrite Ht, no_print_after_cancel_armed, observed_canceled_armed.
      simpl. conj_split; try reflexivity; intros; discriminate.
    + destruct H as (-> & HI & Ht). simpl.
      eapply wp_wand;
        [apply (create_session_guarded W html my dl h _ (Some c) s HI);
         rewrite Ht, ?observed_canceled_armed, ?teardown_failed_armed; reflexivity|].
      intros r' s' [HI' HG]. eauto.
  - intros (-> & Hc & HI & Ht). simpl.
    eapply wp_wand;
      [apply (create_session_guarded W html my dl h _ None s HI);
       rewrite Ht, ?observed_canceled_armed, ?teardown_failed_armed; reflexivity|].
    intros r' s' [HI' HG]. eauto.
Qed.

(** Timers are armed at the entry only, and only for a timeout that is
    not negative. *)
Lemma create_armed W html options h ms :
  In (Armed ms) (trace (snd (create W html options (request_start h)))) ->
  timeout (caller_options h options) = Some ms /\ (0 <= ms)%Z.
Proof.
  set (oc := caller_options h options).
  assert (H : wp (create W html options)
                (fun _ s => In (Armed ms) (trace s) -> In (Armed ms) (armed_events oc))
                (request_start h)).
  { unfold create. apply wp_bind.
    eapply wp_wand; [apply create_entry_run|]. fold oc.
    assert (Hs : forall my chrome s l,
               trace s = armed_events oc ++ l -> ~ In (Armed ms) l ->
               wp (create_session W html my chrome)
                 (fun _ s' => In (Armed ms) (trace s') -> In (Armed ms) (armed_events oc)) s).
    { intros my chrome s l Ht Hl.
      eapply wp_wand; [apply wp_emits, (create_session_emits W html my chrome)|].
      intros _ s' (t & E & F). rewrite E, Ht, !in_app_iff.
      intros [[Hin|Hin]|Hin]; [exact Hin | contradiction|].
      rewrite Forall_forall in F. apply list_elem_of_In, F in Hin. destruct Hin. }
    intros r s. destruct (launches oc).
    - intros [Hc H]. destruct (settles (launch_promise W oc)) as [msg|c].
      + destruct H as (-> & HI & Ht). rewrite Ht, in_app_iff.
        intros [Hin|Hin]; [exact Hin|]. simpl in Hin.
        decompose [or] Hin; try discriminate; contradiction.
      + destruct H as (-> & HI & Ht). eapply Hs; [exact Ht|]. simpl.
        intros Hin. decompose [or] Hin; try discriminate; contradiction.
    - intros (-> & Hc & HI & Ht). eapply Hs; [exact Ht|]. simpl.
      intros Hin. decompose [or] Hin; try discriminate; contradiction. }
  intros Hin. apply H in Hin. unfold armed_events in Hin.
  destruct (timeout oc) as [ms'|]; [|destruct Hin].
  destruct (0 <=? ms')%Z eqn:E; [|destruct Hin].
  destruct Hin as [[= ->]|[]]. split; [reflexivity|]. apply Z.leb_le, E.
Qed.

(** C9. [create] leaves every object of the caller's heap as it was:
    the cancellation flag and the port of a launched browser are
    written to the copy that [Object.assign] makes at the entry. *)
Theorem create_preserves_caller_options W html options h l o :
  h !! l = Some o ->
  store (snd (create W html options (request_start h))) !! l = Some o.
Proof.
  intros Hl. destruct (create_guards W html options h) as [[o1 HI] _].
  rewrite <- Hl. apply (inv_frame _ _ _ _ _ HI).
  intros ->. pose proof (is_fresh (dom h)) as Hf.
  apply not_elem_of_dom in Hf. congruence.
Qed.

Lemma create_preserves_caller_options_witness :
  store (snd (create (steady_world 5) "<h1>hi</h1>" (Some 1%positive)
                (request_start {[1%positive := with_timeout 0 empty_options]})))
    !! 1%positive
  = Some (with_timeout 0 empty_options).
Proof.
  apply create_preserves_caller_options. reflexivity.
Defined.

(** C1 (amended). When the timeout is absent or negative, no timer is
    armed, no guard ever sees the cancellation flag set, the flag of
    [myOptions] is still [false] when [create] settles, and [create]
    does not reject with the timeout error. *)
Theorem create_never_times_out_without_timer W html options h :
  (timeout (caller_options h options) = None \/
   exists ms, timeout (caller_options h options) = Some ms /\ (ms < 0)%Z) ->
  let r := fst (create W html options (request_start h)) in
  let s := snd (create W html options (request_start h)) in
  r <> Throw Timeout /\
  observed_canceled (trace s) = false /\
  (forall ms, ~ In (Armed ms) (trace s)) /\
  _canceled (opts (fresh (dom h)) s) = Some false.
Proof.
  intros Ht r s.
  assert (Hd : deadline (caller_options h options) = None).
  { unfold deadline. destruct Ht as [->|(ms & -> & Hms)]; [reflexivity|].
    destruct (0 <=? ms)%Z eqn:E; [|reflexivity]. apply Z.leb_le in E. lia. }
  destruct (create_guards W html options h) as [[o1 HI] (_ & Hf & Hr)].
  fold r s in HI, Hf, Hr. rewrite Hd in *. simpl in Hf.
  assert (Hq : observed_canceled (trace s) = false)
    by (destruct (observed_canceled (trace s)); [discriminate Hf; reflexivity | reflexivity]).
  conj_split.
  - intros E. rewrite E in Hr. destruct Hr as [Hr _]. rewrite Hr in Hq; [discriminate | reflexivity].
  - exact Hq.
  - intros ms Hin. apply create_armed in Hin as [E Hms].
    destruct Ht as [Ht|(ms' & Ht & Hneg)]; rewrite Ht in E; [discriminate|].
    injection E as ->. lia.
  - rewrite (inv_flag _ _ _ _ _ HI). reflexivity.
Qed.

Lemma create_never_times_out_without_timer_witness :
  let r := fst (create (steady_world 5) "<h1>hi</h1>" (Some 1%positive)
                  (request_start {[1%positive := with_timeout (-1) empty_options]})) in
  let s := snd (create (steady_world 5) "<h1>hi</h1>" (Some 1%positive)
                  (request_start {[1%positive := with_timeout (-1) empty_options]})) in
  r <> Throw Timeout /\
  observed_canceled (trace s) = false /\
  (forall ms, ~ In (Armed ms) (trace s)) /\
  _canceled (opts (fresh (dom ({[1%positive := with_timeout (-1) empty_options]}
                                 : gmap loc CreateOptions))) s) = Some false.
Proof.
  apply create_never_times_out_without_timer.
  right. exists (-1)%Z. split; [reflexivity | lia].
Defined.

(** C1, as stated, fails for a timeout of 0: the timer is armed, and
    with calls that take 5 ms each the guard of [generate] sees the flag
    set; [create] rejects with the timeout error. *)
Lemma timeout_zero_cancels :
  let h : gmap loc CreateOptions := {[1%positive := with_timeout 0 empty_options]} in
  let run := create (steady_world 5) "<h1>hi</h1>" (Some 1%positive) (request_start h) in
  timeout (caller_options h (Some 1%positive)) = Some 0%Z /\
  (0 <= 0)%Z /\
  fst run = Throw Timeout /\
  In (Armed 0) (trace (snd run)) /\
  In (Guard true) (trace (snd run)) /\
  _canceled (opts (fresh (dom h)) (snd run)) = Some true.
Proof. vm_compute. intuition congruence. Qed.

(** ** The trigger waits for a loaded page *)

Lemma loaded_app tr t : loaded tr = true -> loaded (tr ++ t) = true.
Proof.
  unfold loaded. rewrite !existsb_app. intros H.
  apply andb_prop in H as [-> ->]. reflexivity.
Qed.

Lemma wait_ok_nil : wait_ok [].
Proof. intros [|e pre] post H; discriminate. Qed.

Lemma wait_ok_app_quiet tr t :
  wait_ok tr -> Forall (fun e => is_wait_issued e = false) t -> wait_ok (tr ++ t).
Proof.
  intros Hw Hq pre post E. apply app_eq_app in E as [l [[E1 E2]|[E1 E2]]].
  - destruct l as [|x l].
    + simpl in E2. rewrite <- E2 in Hq. inversion Hq. discriminate.
    + injection E2 as <- _. exact (Hw _ _ E1).
  - rewrite E2 in Hq. apply Forall_app in Hq as [_ Hq]. inversion Hq. discriminate.
Qed.

Lemma wait_ok_app_loaded tr t : wait_ok tr -> loaded tr = true -> wait_ok (tr ++ t).
Proof.
  intros Hw Hl pre post E. apply app_eq_app in E as [l [[E1 E2]|[E1 E2]]].
  - destruct l as [|x l].
    + rewrite app_nil_r in E1. subst pre. exact Hl.
    + injection E2 as <- _. exact (Hw _ _ E1).
  - subst pre. apply loaded_app, Hl.
Qed.

Lemma ordered_bind {A B : Type} (m : M A) (f : A -> M B) :
  ordered m -> (forall a, ordered (f a)) -> ordered (bind m f).
Proof.
  intros Hm Hf s Hw. specialize (Hm s Hw). unfold bind.
  destruct (m s) as [[a|e] s1]; simpl in *; [apply Hf, Hm | exact Hm].
Qed.

Lemma ordered_try_finally {A : Type} (body : M A) (fin : M unit) :
  ordered body -> ordered fin -> ordered (try_finally body fin).
Proof.
  intros Hb Hf s Hw. specialize (Hb s Hw). unfold try_finally.
  destruct (body s) as [r s1]; simpl in *. specialize (Hf s1 Hb).
  destruct (fin s1) as [[u|e] s2]; exact Hf.
Qed.

Lemma ordered_emits {A : Type} (m : M A) :
  emits (fun e => is_wait_issued e = false) m -> ordered m.
Proof.
  intros Hm s Hw. destruct (Hm s) as (t & -> & F). apply wait_ok_app_quiet; assumption.
Qed.

(** After [Promise.all] of the navigate command and the load event has
    fulfilled, whatever follows may call [wait]. *)
Lemma ordered_after_load {A : Type} u (p1 p2 : Promise unit) (f : unit * unit -> M A) :
  (forall a, emits (fun _ => True) (f a)) ->
  ordered (bind (await_all2 (Navigate u) p1 LoadEventFired p2) f).
Proof.
  intros Hf s Hw. unfold bind.
  assert (H : wp (await_all2 (Navigate u) p1 LoadEventFired p2)
                (fun r s' => wait_ok (trace s') /\
                             match r with
                             | Ok _ => loaded (trace s') = true
                             | Throw _ => True
                             end) s).
  { unfold await_all2.
    destruct (latency p1 <=? latency p2); wp_go; autorewrite with st;
      (split; [repeat (apply wait_ok_app_quiet; [|repeat constructor]); exact Hw|]);
      try exact I; unfold loaded; rewrite !existsb_app; simpl;
      rewrite ?orb_true_r; reflexivity. }
  unfold wp in H. destruct (await_all2 _ _ _ _ s) as [[a|e] s1]; simpl in *.
  - destruct H as [Hw1 Hl]. destruct (Hf a s1) as (t & -> & _).
    apply wait_ok_app_loaded; assumption.
  - apply H.
Qed.

Ltac ordered_quiet := apply ordered_emits; emits_go; reflexivity.

Lemma generate_ordered W html l tab : ordered (generate W html l tab).
Proof.
  unfold generate.
  apply ordered_bind; [ordered_quiet | intros _].
  apply ordered_bind; [ordered_quiet | intros o].
  apply ordered_bind; [ordered_quiet | intros client].
  apply ordered_try_finally; [|ordered_quiet].
  apply ordered_bind; [unfold beforeNavigate; ordered_quiet | intros _].
  apply ordered_bind; [ordered_quiet | intros _].
  apply ordered_bind; [ordered_quiet | intros _].
  apply ordered_after_load. intros _.
  unfold afterNavigate. emits_go; auto.
Qed.

Lemma create_session_ordered W html my chrome :
  ordered (create_session W html my chrome).
Proof.
  unfold create_session.
  apply ordered_try_finally; [|destruct chrome; ordered_quiet].
  apply ordered_bind; [ordered_quiet | intros o].
  apply ordered_bind; [ordered_quiet | intros tab].
  apply ordered_try_finally; [apply generate_ordered | ordered_quiet].
Qed.

Lemma create_ordered W html options : ordered (create W html options).
Proof.
  unfold create. apply ordered_bind.
  - apply ordered_emits. eapply emits_weaken; [|apply create_entry_emits].
    intros [ | |c|c b]; simpl; try reflexivity; destruct c; simpl; tauto.
  - intros [my chrome]. apply create_session_ordered.
Qed.

(** C4. In every run of [create], wherever the completion trigger's
    [wait] is called, both the navigate command and the load event have
    fulfilled before the call, in whichever order the two settled. *)
Theorem wait_follows_navigation W html options h pre post :
  trace (snd (create W html options (request_start h)))
    = pre ++ Issued TriggerWait :: post ->
  (exists u, In (Settled (Navigate u) true) pre) /\
  In (Settled LoadEventFired true) pre.
Proof.
  intros E.
  pose proof (create_ordered W html options (request_start h) wait_ok_nil _ _ E) as Hl.
  unfold loaded in Hl. apply andb_prop in Hl as [Hn Hd].
  apply existsb_exists in Hn as (e1 & Hin1 & He1).
  apply existsb_exists in Hd as (e2 & Hin2 & He2).
  split.
  - destruct e1 as [d|b|c|c [|]]; simpl in He1; try discriminate;
      destruct c; simpl in He1; try discriminate. eauto.
  - destruct e2 as [d|b|c|c [|]]; simpl in He2; try discriminate;
      destruct c; simpl in He2; try discriminate. exact Hin2.
Qed.

Lemma wait_follows_navigation_witness :
  (exists u, In (Settled (Navigate u) true)
     [Guard false; Guard false;
      Issued (Launch None None DEFAULT_CHROME_FLAGS);
      Settled (Launch None None DEFAULT_CHROME_FLAGS) true;
      Issued (New None (Some 9222%Z)); Settled (New None (Some 9222%Z)) true;
      Guard false; Issued (Connect None (Some 9222%Z) "tab-1");
      Settled (Connect None (Some 9222%Z) "tab-1") true; Guard false;
      Issued PageEnable; Issued RuntimeEnable; Settled PageEnable true;
      Settled RuntimeEnable true; Guard false;
      Issued (Navigate "data:text/html,<h1>hi</h1>"); Issued LoadEventFired;
      Settled (Navigate "data:text/html,<h1>hi</h1>") true;
      Settled LoadEventFired true; Guard false]) /\
  In (Settled LoadEventFired true)
     [Guard false; Guard false;
      Issued (Launch None None DEFAULT_CHROME_FLAGS);
      Settled (Launch None None DEFAULT_CHROME_FLAGS) true;
      Issued (New None (Some 9222%Z)); Settled (New None (Some 9222%Z)) true;
      Guard false; Issued (Connect None (Some 9222%Z) "tab-1");
      Settled (Connect None (Some 9222%Z) "tab-1") true; Guard false;
      Issued PageEnable; Issued RuntimeEnable; Settled PageEnable true;
      Settled RuntimeEnable true; Guard false;
      Issued (Navigate "data:text/html,<h1>hi</h1>"); Issued LoadEventFired;
      Settled (Navigate "data:text/html,<h1>hi</h1>") true;
      Settled LoadEventFired true; Guard false].
Proof.
  eapply (wait_follows_navigation (steady_world 5) "<h1>hi</h1>" (Some 1%positive)
            {[1%positive := with_trigger (raising_trigger 5 "boom") empty_options]}).
  vm_compute. reflexivity.
Defined.

(** ** A completion trigger that reports an evaluation failure *)

Lemma printed_snoc tr e : printed (tr ++ [e]) = printed tr || is_print e.
Proof. unfold printed. rewrite existsb_app. simpl. rewrite orb_false_r. reflexivity. Qed.

Lemma waited_snoc tr e : waited (tr ++ [e]) = waited tr || is_wait_settled e.
Proof. unfold waited. rewrite existsb_app. simpl. rewrite orb_false_r. reflexivity. Qed.

#[export] Hint Rewrite printed_snoc waited_snoc : st.

Lemma existsb_app_quiet (f : Event -> bool) tr t :
  Forall (fun e => f e = false) t -> existsb f (tr ++ t) = existsb f tr.
Proof.
  intros H. rewrite existsb_app.
  replace (existsb f t) with false; [apply orb_false_r|].
  symmetry. induction H as [|e t He _ IH]; simpl; [reflexivity|]. rewrite He. exact IH.
Qed.

Section TriggerFailure.
Variables (my : loc) (dl : option nat) (h : gmap loc CreateOptions)
  (o0 : CreateOptions) (trigger : CompletionTrigger) (v : string).
Hypothesis configured : completionTrigger o0 = Some trigger.
Hypothesis raising : raises trigger v.

(** A step that comes before the trigger: it neither prints nor waits. *)
Lemma before_wait_step {A : Type} (m : M A) s :
  guarded_run my dl h o0 m ->
  emits (fun e => is_print e = false /\ is_wait_settled e = false) m ->
  before_wait my dl h o0 s ->
  wp m (fun r s' => match r with
                    | Ok _ => before_wait my dl h o0 s'
                    | Throw e => trigger_failure v (Throw e : Result A) s'
                    end) s.
Proof.
  intros Hg He (HI & Hq & Ht & Hp & Hw).
  eapply wp_wand; [apply wp_conj; [apply (Hg s HI Hq Ht) | apply (wp_emits _ _ s He)]|].
  intros r s' [[HI' (_ & _ & Hr)] (t & E & F)].
  assert (Hp' : printed (trace s') = false).
  { rewrite E. unfold printed. rewrite existsb_app_quiet; [exact Hp|].
    eapply Forall_impl; [exact F|]. simpl. tauto. }
  assert (Hw' : waited (trace s') = false).
  { rewrite E. unfold waited. rewrite existsb_app_quiet; [exact Hw|].
    eapply Forall_impl; [exact F|]. simpl. tauto. }
  destruct r as [a|e].
  - destruct Hr as [Hq' Ht']. unfold before_wait. conj_split; assumption.
  - split; [eauto|]. split; [exact Hp'|]. rewrite Hw'. discriminate.
Qed.

Lemma afterNavigate_raising client s :
  before_wait my dl h o0 s ->
  wp (afterNavigate my client) (trigger_failure v) s.
Proof.
  intros (HI & Hq & Ht & Hp & Hw). unfold afterNavigate.
  destruct (Inv_fields _ _ _ _ _ HI) as (_ & _ & _ & _ & _ & _ & _ & _ & _ & Hct & _).
  destruct (raising client) as (r & Hr & Hx & Hv).
  wp_step. wp_step. rewrite Hct, configured. wp_step. wp_step. wp_step.
  - (* the guard before [wait] *)
    unfold trigger_failure. autorewrite with st. rewrite Hp, Hw. simpl.
    conj_split; eauto. discriminate.
  - wp_step. wp_step; [congruence|]. rewrite Hr in Hful. injection Hful as <-.
    rewrite Hx. wp_step. wp_step.
    + (* the guard before the evaluation error is thrown *)
      unfold trigger_failure. autorewrite with st. rewrite Hp, Hq. simpl.
      conj_split; eauto. discriminate.
    + wp_step. unfold trigger_failure. autorewrite with st. rewrite Hp, Hq, Ht. simpl.
      conj_split; eauto. rewrite Hv. reflexivity.
Qed.

Lemma trigger_failure_throw {A B : Type} e s :
  trigger_failure v (Throw e : Result A) s ->
  trigger_failure v (Throw e : Result B) s.
Proof.
  intros (_ & Hp & H). split; [eauto|]. split; [exact Hp|].
  intros H1 H2 H3. specialize (H H1 H2 H3). injection H as ->. reflexivity.
Qed.

(** A [finally] block that only makes a call which is not a print. *)
Lemma trigger_failure_finally {A : Type} (r : Result A) c (p : Promise unit) s :
  is_print (Issued c) = false ->
  is_teardown_failure (Settled c false) = true ->
  trigger_failure v r s ->
  wp (call c p)
    (fun rf s' => trigger_failure v
                    (match rf with Ok _ => r | Throw e => Throw e end) s') s.
Proof.
  intros Hc Hf (He & Hp & H).
  destruct c; try discriminate Hf; apply wp_call; intros x Hx;
    unfold trigger_failure; autorewrite with st; rewrite Hp; simpl;
    rewrite ?orb_false_r, ?orb_true_r; conj_split; eauto; discriminate.
Qed.

Ltac before_step :=
  apply wp_bind; eapply wp_wand;
  [ apply before_wait_step;
    [ solve [guarded_go] | solve [emits_go; simpl; auto] | eassumption ]
  | let H := fresh "HS" in
    intros [?|?] ? H; [|exact (trigger_failure_throw _ _ H)] ].

Lemma generate_raising W html tab s :
  before_wait my dl h o0 s ->
  wp (generate W html my tab) (trigger_failure v) s.
Proof.
  intros HS. unfold generate.
  before_step. before_step. before_step.
  apply wp_try_finally.
  eapply wp_wand with (Q := trigger_failure v).
  - unfold beforeNavigate. before_step. before_step. before_step. before_step.
    apply wp_bind. eapply wp_wand; [apply afterNavigate_raising; eassumption|].
    intros [res|exn] sw Hw; [destruct Hw as [[e' He] _]; discriminate|].
    exact (trigger_failure_throw _ _ Hw).
  - intros r sf (He & Hp & H). apply wp_emit.
    unfold trigger_failure. autorewrite with st. rewrite Hp. simpl.
    rewrite !orb_false_r. auto.
Qed.

Lemma create_session_raising W html chrome s :
  before_wait my dl h o0 s ->
  wp (create_session W html my chrome) (trigger_failure v) s.
Proof.
  intros HS. unfold create_session. apply wp_try_finally.
  eapply wp_wand with (Q := trigger_failure v).
  - before_step. before_step. apply wp_try_finally.
    eapply wp_wand; [apply generate_raising; eassumption|].
    intros r sg Hg. apply wp_bind, wp_deref.
    eapply wp_wand;
      [apply (trigger_failure_finally r); [reflexivity | reflexivity | exact Hg]|].
    intros [u|ex] sc Hc; exact Hc.
  - intros r sg Hg. destruct chrome as [c|].
    + eapply wp_wand;
        [apply (trigger_failure_finally r); [reflexivity | reflexivity | exact Hg]|].
      intros [u|ex] sc Hc; exact Hc.
    + apply wp_ret. exact Hg.
Qed.
End TriggerFailure.

Lemma create_raising W html options h trigger v :
  completionTrigger (caller_options h options) = Some trigger ->
  raises trigger v ->
  wp (create W html options) (trigger_failure v) (request_start h).
Proof.
  intros Hc Hr. set (oc := caller_options h options) in *.
  unfold create. apply wp_bind.
  eapply wp_wand; [apply create_entry_run|]. fold oc.
  assert (Hq : forall l,
             existsb is_print l = false -> existsb is_wait_settled l = false ->
             observed_canceled l = false -> teardown_failed l = false ->
             forall my o1 s, Inv my (deadline oc) h o1 s ->
             trace s = armed_events oc ++ l ->
             before_wait my (deadline oc) h o1 s).
  { intros l H1 H2 H3 H4 my o1 s HI Ht. unfold before_wait, printed, waited.
    rewrite Ht, observed_canceled_armed, teardown_failed_armed, !existsb_app, H1, H2.
    unfold armed_events.
    destruct (timeout oc) as [ms|]; [destruct (0 <=? ms)%Z|]; simpl; auto. }
  intros r s. destruct (launches oc).
  - intros [_ H]. destruct (settles (launch_promise W oc)) as [msg|c].
    + destruct H as (-> & HI & Ht). unfold trigger_failure, printed, waited.
      rewrite Ht, !existsb_app. unfold armed_events.
      destruct (timeout oc) as [ms|]; [destruct (0 <=? ms)%Z|]; simpl;
        conj_split; eauto; discriminate.
    + destruct H as (-> & HI & Ht). simpl.
      eapply create_session_raising;
        [| exact Hr | refine (Hq _ _ _ _ _ _ _ _ HI Ht); reflexivity].
      simpl. exact Hc.
  - intros (-> & _ & HI & Ht). simpl.
    eapply create_session_raising;
      [exact Hc | exact Hr | refine (Hq _ _ _ _ _ _ _ _ HI Ht); reflexivity].
Qed.

Lemma existsb_false_not_In {A : Type} (f : A -> bool) l x :
  existsb f l = false -> In x l -> f x = false.
Proof.
  intros H Hin. destruct (f x) eqn:E; [|reflexivity].
  assert (existsb f l = true) by (apply existsb_exists; eauto). congruence.
Qed.

Lemma raising_trigger_raises d msg : raises (raising_trigger d msg) msg.
Proof. intros client. eexists. repeat split. Qed.

(** C3 (amended). When the configured completion trigger's [wait]
    reports an evaluation failure, [create] rejects and no print-to-PDF
    call is issued; the rejection is the error made from the remote
    value whenever [wait] has returned, no guard has seen the
    cancellation flag set, and neither [CDP.Close] nor [chrome.kill]
    has rejected. *)
Theorem evaluation_failure_rejects W html options h trigger v :
  completionTrigger (caller_options h options) = Some trigger ->
  raises trigger v ->
  let r := fst (create W html options (request_start h)) in
  let s := snd (create W html options (request_start h)) in
  (exists e, r = Throw e) /\
  (forall po, ~ In (Issued (PrintToPDF po)) (trace s)) /\
  (In (Settled TriggerWait true) (trace s) ->
   observed_canceled (trace s) = false ->
   teardown_failed (trace s) = false ->
   r = Throw (EvaluationError v) /\ message (EvaluationError v) = v).
Proof.
  intros Hc Hr r s.
  destruct (create_raising W html options h trigger v Hc Hr) as (He & Hp & H).
  fold r s in He, Hp, H. conj_split.
  - exact He.
  - intros po Hin. apply (existsb_false_not_In _ _ _ Hp) in Hin. discriminate.
  - intros Hin Hq Ht. split; [|reflexivity]. apply H; try assumption.
    apply existsb_exists. eexists. split; [exact Hin | reflexivity].
Qed.

Lemma evaluation_failure_rejects_witness :
  fst (create (steady_world 5) "<h1>hi</h1>" (Some 1%positive)
         (request_start
            {[1%positive := with_trigger (raising_trigger 5 "boom") empty_options]}))
  = Throw (EvaluationError "boom").
Proof.
  apply (evaluation_failure_rejects (steady_world 5) "<h1>hi</h1>" (Some 1%positive)
           {[1%positive := with_trigger (raising_trigger 5 "boom") empty_options]}
           (raising_trigger 5 "boom") "boom").
  - reflexivity.
  - apply raising_trigger_raises.
  - vm_compute. tauto.
  - reflexivity.
  - reflexivity.
Defined.

(** C3, as stated, fails when the timer fires while [wait] is pending:
    the outcome of [wait] carries the failure ["boom"], and [create]
    rejects with the timeout error instead. *)
Lemma evaluation_failure_lost_to_timeout :
  let o := with_timeout 42 (with_trigger (raising_trigger 50 "boom") empty_options) in
  let run := create (steady_world 5) "<h1>hi</h1>" (Some 1%positive)
               (request_start {[1%positive := o]}) in
  completionTrigger o = Some (raising_trigger 50 "boom") /\
  In (Settled TriggerWait true) (trace (snd run)) /\
  fst run = Throw Timeout /\
  message Timeout <> "boom".
Proof. vm_compute. intuition congruence. Qed.

(** C10 (amended). When [wait] has reported an evaluation failure and
    the guard that follows sees the cancellation flag set, [create]
    never rejects with the evaluation error, and it rejects with the
    timeout error unless [CDP.Close] or [chrome.kill] rejects. *)
Theorem timeout_precedes_evaluation_error W html options h trigger v pre post :
  completionTrigger (caller_options h options) = Some trigger ->
  raises trigger v ->
  let r := fst (create W html options (request_start h)) in
  let s := snd (create W html options (request_start h)) in
  trace s = pre ++ Settled TriggerWait true :: Guard true :: post ->
  (forall v', r <> Throw (EvaluationError v')) /\
  (teardown_failed (trace s) = false -> r = Throw Timeout).
Proof.
  intros Hc Hr r s E.
  destruct (create_guards W html options h) as [_ (_ & _ & HG)].
  destruct (create_raising W html options h trigger v Hc Hr) as ([e He] & _).
  fold r s in HG, He.
  assert (Ho : observed_canceled (trace s) = true).
  { rewrite E. unfold observed_canceled. rewrite existsb_app. simpl.
    apply orb_true_r. }
  rewrite He in *. destruct HG as (_ & H2 & H3). split.
  - intros v' [= ->]. rewrite (H3 v' eq_refl) in Ho. discriminate.
  - intros Ht. rewrite (H2 Ho Ht). reflexivity.
Qed.

Lemma timeout_precedes_evaluation_error_witness :
  fst (create (steady_world 5) "<h1>hi</h1>" (Some 1%positive)
         (request_start
            {[1%positive :=
                with_timeout 42
                  (with_trigger (raising_trigger 50 "boom") empty_options)]}))
  = Throw Timeout.
Proof.
  eapply (timeout_precedes_evaluation_error (steady_world 5) "<h1>hi</h1>"
            (Some 1%positive)
            {[1%positive :=
                with_timeout 42
                  (with_trigger (raising_trigger 50 "boom") empty_options)]}
            (raising_trigger 50 "boom") "boom"
            [Armed 42; Guard false; Guard false;
             Issued (Launch None None DEFAULT_CHROME_FLAGS);
             Settled (Launch None None DEFAULT_CHROME_FLAGS) true;
             Issued (New None (Some 9222%Z)); Settled (New None (Some 9222%Z)) true;
             Guard false; Issued (Connect None (Some 9222%Z) "tab-1");
             Settled (Connect None (Some 9222%Z) "tab-1") true; Guard false;
             Issued PageEnable; Issued RuntimeEnable; Settled PageEnable true;
             Settled RuntimeEnable true; Guard false;
             Issued (Navigate "data:text/html,<h1>hi</h1>"); Issued LoadEventFired;
             Settled (Navigate "data:text/html,<h1>hi</h1>") true;
             Settled LoadEventFired true; Guard false; Issued TriggerWait]
            [Issued ClientClose; Issued (Close None (Some 9222%Z) "tab-1");
             Settled (Close None (Some 9222%Z) "tab-1") true; Issued Kill;
             Settled Kill true]).
  - reflexivity.
  - apply raising_trigger_raises.
  - vm_compute. reflexivity.
  - vm_compute. reflexivity.
Defined.

(** C10, as stated, fails when the teardown fails: [wait] reports the
    failure while the flag is set, [generate] throws the timeout error,
    and the rejection of [CDP.Close] replaces it. *)
Lemma timeout_lost_to_teardown :
  let o := with_timeout 42 (with_trigger (raising_trigger 50 "boom") empty_options) in
  let run := create (close_fails_world 5 "close failed") "<h1>hi</h1>"
               (Some 1%positive) (request_start {[1%positive := o]}) in
  completionTrigger o = Some (raising_trigger 50 "boom") /\
  (exists pre post,
     trace (snd run) = pre ++ Settled TriggerWait true :: Guard true :: post) /\
  fst run = Throw (Rejection "close failed") /\
  fst run <> Throw Timeout.
Proof.
  vm_compute. conj_split; try congruence.
  eexists (_ :: _ :: _ :: _ :: _ :: _ :: _ :: _ :: _ :: _ :: _ :: _ :: _ :: _ :: _ ::
           _ :: _ :: _ :: _ :: _ :: _ :: _ :: nil), _.
  reflexivity.
Qed.

(** ** Teardown and the error of [create] *)

Lemma call_run {A : Type} c (p : Promise A) s :
  call c p s =
  (match settles p with
   | inl msg => Throw (Rejection msg)
   | inr v => Ok v
   end,
   log (Settled c (match settles p with inl _ => false | inr _ => true end))
     (elapse (latency p) (log (Issued c) s))).
Proof.
  unfold call, await, settle, bind, emit, sleep, throw, ret.
  destruct (settles p); reflexivity.
Qed.

(** C7 (amended). When the generation sequence throws [e], [create]
    rejects with [e] if neither [CDP.Close] nor [chrome.kill] rejects;
    if one of them rejects, [create] rejects with the rejection of the
    last of them to do so, and [e] is lost. *)
Theorem teardown_decides_error W html options h my chrome s0 tab s1 e s2 :
  create_entry W options (request_start h) = (Ok (my, chrome), s0) ->
  call (New (host (opts my s0)) (port (opts my s0))) (CDP_New W (opts my s0)) s0
    = (Ok tab, s1) ->
  generate W html my tab s1 = (Throw e, s2) ->
  fst (create W html options (request_start h))
    = Throw (after_teardown (CDP_Close W (opts my s2) (id tab)) chrome e).
Proof.
  intros H0 H1 H2. unfold create, bind. rewrite H0. simpl.
  unfold create_session, try_finally, bind, deref. fold (opts my s0).
  rewrite H1, H2. fold (opts my s2). rewrite call_run. unfold after_teardown.
  destruct (settles (CDP_Close W (opts my s2) (id tab))) as [m|[]];
    destruct chrome as [c|]; try reflexivity;
    rewrite call_run; destruct (settles (kill c)) as [m'|[]]; reflexivity.
Qed.

Lemma teardown_decides_error_witness :
  fst (create (sample_world 5 (rejects 5 "print failed") (fulfils 5 tt) (fulfils 5 tt))
         "<h1>hi</h1>" (Some 1%positive)
         (request_start {[1%positive := empty_options]}))
  = Throw (after_teardown (fulfils 5 tt)
             (Some {| chrome_port := 9222; kill := fulfils 5 tt |})
             (Rejection "print failed")).
Proof.
  eapply (teardown_decides_error
            (sample_world 5 (rejects 5 "print failed") (fulfils 5 tt) (fulfils 5 tt))
            "<h1>hi</h1>" (Some 1%positive) {[1%positive := empty_options]}).
  - vm_compute. reflexivity.
  - vm_compute. reflexivity.
  - vm_compute. reflexivity.
Defined.

(** C7, as stated, fails: printing rejects, so the generation sequence
    fails with ["print failed"]; [CDP.Close] rejects too, and [create]
    rejects with ["close failed"]. *)
Lemma teardown_error_masks_generation_error :
  let W := sample_world 5 (rejects 5 "print failed") (rejects 5 "close failed")
             (fulfils 5 tt) in
  let run := create W "<h1>hi</h1>" (Some 1%positive)
               (request_start {[1%positive := empty_options]}) in
  In (Settled (PrintToPDF None) false) (trace (snd run)) /\
  In (Settled (Close None (Some 9222%Z) "tab-1") false) (trace (snd run)) /\
  fst run = Throw (Rejection "close failed") /\
  fst run <> Throw (Rejection "print failed").
Proof. vm_compute. intuition congruence. Qed.

(** ** Launching a browser, or attaching to one *)

Lemma trace_grows {A : Type} (m : M A) e s :
  emits (fun _ => True) m -> In e (trace s) -> In e (trace (snd (m s))).
Proof.
  intros Hm Hin. destruct (Hm s) as (t & -> & _). apply in_or_app. auto.
Qed.

Lemma create_session_grows W html my chrome :
  emits (fun _ => True) (create_session W html my chrome).
Proof. eapply emits_weaken; [|apply create_session_emits]. auto. Qed.

(** The session starts with [CDP.New] for the host and port of
    [myOptions]. *)
Lemma create_session_attaches W html my chrome s :
  In (Issued (New (host (opts my s)) (port (opts my s))))
    (trace (snd (create_session W html my chrome s))).
Proof.
  set (e := Issued (New (host (opts my s)) (port (opts my s)))).
  change (wp (create_session W html my chrome) (fun _ s' => In e (trace s')) s).
  assert (Hfin : forall s', In e (trace s') ->
            wp (match chrome with
                | Some c => call Kill (kill c)
                | None => ret tt
                end)
              (fun (rf : Result unit) s'' =>
                 match rf with
                 | Ok _ => In e (trace s'')
                 | Throw _ => In e (trace s'')
                 end) s').
  { intros s' Hin. eapply wp_wand with (Q := fun _ s'' => In e (trace s'')).
    - apply trace_grows; [|exact Hin]. destruct chrome; emits_go; auto.
    - intros [u|x] s'' H; exact H. }
  unfold create_session. apply wp_try_finally, wp_bind, wp_deref, wp_bind.
  unfold call at 1. apply wp_bind, wp_emit.
  eapply wp_wand with (Q := fun _ s' => In e (trace s')).
  { apply trace_grows; [unfold await; emits_go; auto|].
    rewrite trace_log. apply in_or_app. right. left. reflexivity. }
  intros [tab|x] s1 H1; [|apply Hfin, H1].
  eapply wp_wand with (Q := fun _ s' => In e (trace s')).
  { apply trace_grows; [|exact H1]. emits_go; auto. }
  intros r s2 H2. apply Hfin, H2.
Qed.

Lemma armed_events_not_issued o c : ~ In (Issued c) (armed_events o).
Proof.
  unfold armed_events. destruct (timeout o) as [ms|]; [destruct (0 <=? ms)%Z|]; simpl;
    intuition discriminate.
Qed.

(** C8 (amended). [create] launches a local browser exactly when the
    host is absent or empty and the port is absent or 0; otherwise it
    launches nothing and calls [CDP.New] with the caller's host and
    port. *)
Theorem launch_iff_no_target W html options h :
  let oc := caller_options h options in
  let tr := trace (snd (create W html options (request_start h))) in
  ((exists p path flags, In (Issued (Launch p path flags)) tr) <->
   truthy_string (host oc) = false /\ truthy_number (port oc) = false) /\
  (truthy_string (host oc) = true \/ truthy_number (port oc) = true ->
   In (Issued (New (host oc) (port oc))) tr).
Proof.
  intros oc tr.
  assert (H : wp (create W html options)
                (fun _ s =>
                   if launches oc then In (Issued (launch_call oc)) (trace s)
                   else In (Issued (New (host oc) (port oc))) (trace s) /\
                        forall p path flags,
                          ~ In (Issued (Launch p path flags)) (trace s))
                (request_start h)).
  { unfold create. apply wp_bind.
    eapply wp_wand; [apply create_entry_run|]. fold oc.
    intros r s. destruct (launches oc).
    - intros [_ H].
      assert (Hin : In (Issued (launch_call oc)) (trace s)).
      { destruct (settles (launch_promise W oc)); destruct H as (_ & _ & ->);
          apply in_or_app; right; simpl; auto. }
      destruct (settles (launch_promise W oc)); destruct H as (-> & _ & _);
        [exact Hin|].
      apply trace_grows; [apply create_session_grows | exact Hin].
    - intros (-> & _ & HI & Ht). simpl.
      destruct (Inv_fields _ _ _ _ _ HI) as (Hh & Hp & _).
      apply wp_conj with (Q := fun _ s' => In (Issued (New (host oc) (port oc))) (trace s')).
      + rewrite <- Hh, <- Hp. apply create_session_attaches.
      + eapply wp_wand; [apply wp_emits, (create_session_emits W html)|].
        intros _ s' (t & -> & F) p path flags Hin. rewrite Ht in Hin.
        apply in_app_or in Hin as [Hin|Hin].
        * apply in_app_or in Hin as [Hin|Hin];
            [exact (armed_events_not_issued _ _ Hin)|].
          simpl in Hin. intuition discriminate.
        * rewrite Forall_forall in F. apply list_elem_of_In, F in Hin. exact Hin. }
  unfold wp in H. fold tr in H. unfold launches in H.
  destruct (truthy_string (host oc)), (truthy_number (port oc)); simpl in H;
    (split; [split|]);
    try (intros (p & path & flags & Hin); destruct H as [_ H]; exfalso; exact (H _ _ _ Hin));
    try (intros [? ?]; discriminate);
    try (intros _; exact (proj1 H));
    try (intros [?|?]; discriminate);
    try (intros _; unfold launch_call in H; eauto);
    try (split; reflexivity).
Qed.

Lemma launch_iff_no_target_witness :
  In (Issued (New (Some "chrome.test") (Some 9333%Z)))
    (trace (snd (create (steady_world 5) "<h1>hi</h1>" (Some 1%positive)
                   (request_start
                      {[1%positive :=
                          with_host "chrome.test" (with_port 9333 empty_options)]})))).
Proof.
  exact (proj2 (launch_iff_no_target (steady_world 5) "<h1>hi</h1>" (Some 1%positive)
                  {[1%positive := with_host "chrome.test" (with_port 9333 empty_options)]})
           (or_introl eq_refl)).
Defined.

(** C8, as stated, fails for a port of 0: the port is present in the
    options, and [create] launches a browser all the same. *)
Lemma port_zero_launches :
  let o := with_port 0 empty_options in
  let run := create (steady_world 5) "<h1>hi</h1>" (Some 1%positive)
               (request_start {[1%positive := o]}) in
  port o = Some 0%Z /\ port o <> None /\
  In (Issued (Launch (Some 0%Z) None DEFAULT_CHROME_FLAGS)) (trace (snd run)).
Proof. vm_compute. intuition congruence. Qed.

(** ** Every acquired resource is released once, in order *)

Lemma res_run_app q a b :
  res_run q (a ++ b) =
  match res_run q a with Some q' => res_run q' b | None => None end.
Proof.
  revert q. induction a as [|e a IH]; intros q; simpl; [reflexivity|].
  destruct (res_step q e); [apply IH | reflexivity].
Qed.

Lemma res_step_quiet q e : is_lifecycle e = false -> res_step q e = Some q.
Proof.
  destruct e as [d|b|c|c [|]]; try reflexivity; destruct c; simpl;
    try reflexivity; discriminate.
Qed.

Lemma res_run_quiet q t :
  Forall (fun e => is_lifecycle e = false) t -> res_run q t = Some q.
Proof.
  induction 1 as [|e t He _ IH]; simpl; [reflexivity|].
  rewrite (res_step_quiet q e He). exact IH.
Qed.

(** A step that moves no resource. *)
Lemma resources_quiet_step {A : Type} (m : M A) q s :
  emits (fun e => is_lifecycle e = false) m ->
  res_run idle (trace s) = Some q ->
  wp m (fun _ s' => res_run idle (trace s') = Some q) s.
Proof.
  intros Hm Hq. destruct (Hm s) as (t & E & F). unfold wp. rewrite E.
  rewrite res_run_app, Hq. apply res_run_quiet, F.
Qed.

Lemma res_run_snoc q tr e :
  res_run q (tr ++ [e]) =
  match res_run q tr with Some q' => res_step q' e | None => None end.
Proof.
  rewrite res_run_app. destruct (res_run q tr) as [q'|]; [|reflexivity].
  simpl. destruct (res_step q' e); reflexivity.
Qed.

Ltac use_run :=
  match goal with
  | H : res_run idle (trace ?s) = Some _ |- context [res_run idle (trace ?s)] =>
      rewrite H
  end.

Ltac quiet_step :=
  apply wp_bind; eapply wp_wand;
  [ apply resources_quiet_step; [solve [emits_go; reflexivity] | eassumption]
  | let H := fresh "Hq" in intros [?|?] ? H ].

(** [generate] opens the client at most once, and closes it if it
    opened it. *)
Lemma generate_resources W html l tab s q :
  res_run idle (trace s) = Some q ->
  res_client q = Absent -> is_released (res_process q) = false ->
  wp (generate W html l tab)
    (fun _ s' => exists q',
       res_run idle (trace s') = Some q' /\
       res_process q' = res_process q /\ res_tab q' = res_tab q /\
       is_live (res_client q') = false) s.
Proof.
  intros Hq Hc Hp.
  assert (Hsame : forall s', res_run idle (trace s') = Some q ->
            exists q', res_run idle (trace s') = Some q' /\
              res_process q' = res_process q /\ res_tab q' = res_tab q /\
              is_live (res_client q') = false).
  { intros s' H. exists q. rewrite Hc. auto. }
  unfold generate. quiet_step; [|auto]. quiet_step; [|auto].
  apply wp_bind, wp_call.
  - intros msg _. apply Hsame. autorewrite with st. rewrite !res_run_snoc; use_run.
    reflexivity.
  - intros client _. apply wp_try_finally.
    set (q1 := {| res_process := res_process q; res_tab := res_tab q;
                  res_client := Live |}).
    eapply wp_wand with (Q := fun _ s' => res_run idle (trace s') = Some q1).
    + apply resources_quiet_step.
      * unfold beforeNavigate, afterNavigate. emits_go; reflexivity.
      * autorewrite with st. rewrite !res_run_snoc; use_run. simpl. rewrite Hc. reflexivity.
    + intros r sb Hb. apply wp_emit.
      assert (H : res_run idle (trace (log (Issued ClientClose) sb)) =
                  Some {| res_process := res_process q; res_tab := res_tab q;
                          res_client := Released |}).
      { autorewrite with st. rewrite res_run_snoc; use_run. simpl. rewrite Hp. reflexivity. }
      destruct r; eexists; (split; [exact H|]); auto.
Qed.

(** The two [finally] blocks of [create] release what was acquired. *)
Lemma create_session_resources W html my chrome s q :
  res_run idle (trace s) = Some q ->
  res_tab q = Absent -> res_client q = Absent ->
  res_process q = (match chrome with Some _ => Live | None => Absent end) ->
  wp (create_session W html my chrome)
    (fun _ s' => exists q',
       res_run idle (trace s') = Some q' /\ all_settled q' = true) s.
Proof.
  intros Hq Ht Hc Hp.
  assert (Hkill : forall (r : Result CreateResult) s' q',
            res_run idle (trace s') = Some q' ->
            res_process q' = res_process q ->
            is_live (res_tab q') = false -> is_live (res_client q') = false ->
            wp (match chrome with
                | Some c => call Kill (kill c)
                | None => ret tt
                end)
              (fun rf s'' =>
                 match rf with
                 | Ok _ => exists q'', res_run idle (trace s'') = Some q'' /\
                                       all_settled q'' = true
                 | Throw _ => exists q'', res_run idle (trace s'') = Some q'' /\
                                          all_settled q'' = true
                 end) s').
  { intros r s' q' Hq' Hp' Ht' Hc'. rewrite Hp in Hp'. destruct chrome as [c|].
    - apply wp_call; intros x _; autorewrite with st;
        rewrite !res_run_snoc; use_run; simpl; rewrite Ht', Hc', Hp'; simpl;
        eexists; (split; [reflexivity|]); unfold all_settled; simpl;
        rewrite Ht', Hc'; reflexivity.
    - apply wp_ret. exists q'. split; [exact Hq'|]. unfold all_settled.
      rewrite Hp', Ht', Hc'. reflexivity. }
  unfold create_session. apply wp_try_finally. quiet_step.
  2:{ eapply (Hkill (Throw e)); [eassumption | reflexivity | rewrite Ht | rewrite Hc];
        reflexivity. }
  apply wp_bind, wp_call.
  - intros msg _. eapply (Hkill (Throw (Rejection msg)));
      [autorewrite with st; rewrite !res_run_snoc; use_run; reflexivity
      | reflexivity | rewrite Ht; reflexivity | rewrite Hc; reflexivity].
  - intros tab _. apply wp_try_finally.
    set (q1 := {| res_process := res_process q; res_tab := Live;
                  res_client := res_client q |}).
    eapply wp_wand.
    + apply (generate_resources W html my tab _ q1).
      * autorewrite with st. rewrite !res_run_snoc; use_run. simpl. rewrite Ht. reflexivity.
      * exact Hc.
      * simpl. rewrite Hp. destruct chrome; reflexivity.
    + intros r sg (q' & Hq' & Hp' & Ht' & Hc'). simpl in Hp', Ht'.
      apply wp_bind, wp_deref.
      assert (Hrel : is_released (res_process q') = false)
        by (rewrite Hp', Hp; destruct chrome; reflexivity).
      apply wp_call; intros x _.
      * eapply (Hkill (Throw (Rejection x)));
          [autorewrite with st; rewrite !res_run_snoc; use_run; simpl;
           rewrite Hc', Hrel, Ht'; reflexivity
          | exact Hp' | reflexivity | exact Hc'].
      * eapply (Hkill r);
          [autorewrite with st; rewrite !res_run_snoc; use_run; simpl;
           rewrite Hc', Hrel, Ht'; reflexivity
          | exact Hp' | reflexivity | exact Hc'].
Qed.

Lemma res_run_armed o l q : res_run q (armed_events o ++ l) = res_run q l.
Proof.
  unfold armed_events. destruct (timeout o) as [ms|]; [destruct (0 <=? ms)%Z|]; reflexivity.
Qed.

Lemma create_resources W html options h :
  wp (create W html options)
    (fun _ s => exists q, res_run idle (trace s) = Some q /\ all_settled q = true)
    (request_start h).
Proof.
  set (oc := caller_options h options).
  unfold create. apply wp_bind.
  eapply wp_wand; [apply create_entry_run|]. fold oc.
  intros r s. destruct (launches oc).
  - intros [_ H]. destruct (settles (launch_promise W oc)) as [msg|c].
    + destruct H as (-> & _ & Ht). exists idle. rewrite Ht, res_run_armed. auto.
    + destruct H as (-> & _ & Ht). simpl.
      eapply (create_session_resources W html _ (Some c) s
                {| res_process := Live; res_tab := Absent; res_client := Absent |});
        try reflexivity.
      rewrite Ht, res_run_armed. reflexivity.
  - intros (-> & _ & _ & Ht). simpl.
    eapply (create_session_resources W html _ None s idle); try reflexivity.
    rewrite Ht, res_run_armed. reflexivity.
Qed.

Lemma res_step_counts q e q' :
  res_step q e = Some q' ->
  tick is_launch_ok e + acquired (res_process q) = acquired (res_process q') /\
  tick is_kill_issued e + released (res_process q) = released (res_process q') /\
  tick is_new_ok e + acquired (res_tab q) = acquired (res_tab q') /\
  tick is_close_issued e + released (res_tab q) = released (res_tab q') /\
  tick is_connect_ok e + acquired (res_client q) = acquired (res_client q') /\
  tick is_client_close e + released (res_client q) = released (res_client q').
Proof.
  destruct q as [p t c].
  destruct e as [d|b|k|k [|]]; try (intros [= <-]; repeat split; reflexivity);
    destruct k; try (intros [= <-]; repeat split; reflexivity);
    destruct p, t, c; simpl; try discriminate;
    intros [= <-]; repeat split; reflexivity.
Qed.

Lemma count_events_cons f e tr :
  count_events f (e :: tr) = tick f e + count_events f tr.
Proof. unfold count_events, tick. simpl. destruct (f e); reflexivity. Qed.

Lemma res_run_counts tr : forall q q',
  res_run q tr = Some q' ->
  count_events is_launch_ok tr + acquired (res_process q) = acquired (res_process q') /\
  count_events is_kill_issued tr + released (res_process q) = released (res_process q') /\
  count_events is_new_ok tr + acquired (res_tab q) = acquired (res_tab q') /\
  count_events is_close_issued tr + released (res_tab q) = released (res_tab q') /\
  count_events is_connect_ok tr + acquired (res_client q) = acquired (res_client q') /\
  count_events is_client_close tr + released (res_client q) = released (res_client q').
Proof.
  induction tr as [|e tr IH]; intros q q' H; simpl in H.
  - injection H as <-. repeat split; reflexivity.
  - destruct (res_step q e) as [q1|] eqn:E; [|discriminate].
    apply res_step_counts in E. apply IH in H. rewrite !count_events_cons. lia.
Qed.

Lemma res_step_after_kill q e q' :
  res_step q e = Some q' -> res_process q = Released ->
  res_process q' = Released /\ is_close_issued e = false /\ is_client_close e = false.
Proof.
  destruct q as [p t c]. simpl. intros H ->.
  destruct e as [d|b|k|k [|]]; try (injection H as <-; repeat split; reflexivity);
    destruct k; try (injection H as <-; repeat split; reflexivity);
    destruct t, c; simpl in H; try discriminate;
    injection H as <-; repeat split; reflexivity.
Qed.

Lemma res_run_after_kill post : forall q q',
  res_run q post = Some q' -> res_process q = Released ->
  Forall (fun e => is_close_issued e = false /\ is_client_close e = false) post.
Proof.
  induction post as [|e post IH]; intros q q' H Hp; [constructor|].
  simpl in H. destruct (res_step q e) as [q1|] eqn:E; [|discriminate].
  destruct (res_step_after_kill _ _ _ E Hp) as (Hp1 & H1 & H2).
  constructor; [auto | eapply IH; eauto].
Qed.

Lemma phase_settled p : is_live p = false -> acquired p = released p.
Proof. destruct p; [reflexivity | discriminate | reflexivity]. Qed.

Lemma acquired_le_1 p : acquired p <= 1.
Proof. destruct p; simpl; lia. Qed.

(** C5. On every run of [create], whatever fails: the tab is closed
    exactly once if [CDP.New] fulfilled (and never otherwise), the
    client is closed exactly once if [CDP(...)] fulfilled, the browser
    is killed exactly once if this request launched it; at most one of
    each is acquired; and when the browser is killed, every tab and
    client acquired has been closed before, and none is closed after. *)
Theorem resources_released_exactly_once W html options h :
  let tr := trace (snd (create W html options (request_start h))) in
  (count_events is_new_ok tr <= 1 /\
   count_events is_close_issued tr = count_events is_new_ok tr) /\
  (count_events is_connect_ok tr <= 1 /\
   count_events is_client_close tr = count_events is_connect_ok tr) /\
  (count_events is_launch_ok tr <= 1 /\
   count_events is_kill_issued tr = count_events is_launch_ok tr) /\
  forall pre post, tr = pre ++ Issued Kill :: post ->
    count_events is_close_issued pre = count_events is_new_ok pre /\
    count_events is_client_close pre = count_events is_connect_ok pre /\
    Forall (fun e => is_close_issued e = false /\ is_client_close e = false) post.
Proof.
  intros tr. destruct (create_resources W html options h) as (q & Hq & Hs).
  fold tr in Hq. unfold all_settled in Hs.
  apply andb_prop in Hs as [Hs Hc]. apply andb_prop in Hs as [Hp Ht].
  apply negb_true_iff in Hp, Ht, Hc.
  pose proof (res_run_counts _ _ _ Hq) as (C1 & C2 & C3 & C4 & C5 & C6).
  simpl in C1, C2, C3, C4, C5, C6.
  pose proof (phase_settled _ Hp). pose proof (phase_settled _ Ht).
  pose proof (phase_settled _ Hc).
  pose proof (acquired_le_1 (res_process q)). pose proof (acquired_le_1 (res_tab q)).
  pose proof (acquired_le_1 (res_client q)).
  repeat split; try lia.
  - (* before the kill *)
    rewrite H5, res_run_app in Hq.
    destruct (res_run idle pre) as [q1|] eqn:E1; [|discriminate].
    simpl in Hq. destruct (is_live (res_tab q1)) eqn:L1; [discriminate|].
    pose proof (res_run_counts _ _ _ E1) as (_ & _ & D3 & D4 & _).
    pose proof (phase_settled _ L1). simpl in D3, D4. lia.
  - rewrite H5, res_run_app in Hq.
    destruct (res_run idle pre) as [q1|] eqn:E1; [|discriminate].
    simpl in Hq. destruct (is_live (res_tab q1)); [discriminate|].
    destruct (is_live (res_client q1)) eqn:L1; [discriminate|].
    pose proof (res_run_counts _ _ _ E1) as (_ & _ & _ & _ & D5 & D6).
    pose proof (phase_settled _ L1). simpl in D5, D6. lia.
  - rewrite H5, res_run_app in Hq.
    destruct (res_run idle pre) as [q1|] eqn:E1; [|discriminate].
    simpl in Hq. destruct (is_live (res_tab q1) || is_live (res_client q1)); [discriminate|].
    destruct (release (res_process q1)) as [p|] eqn:Er; [|discriminate].
    eapply res_run_after_kill; [exact Hq|]. simpl.
    destruct (res_process q1); simpl in Er; try discriminate. congruence.
Qed.

(** A run in which printing rejects: each resource is acquired once
    and released once. *)
Example resources_released_when_print_fails :
  let tr := trace (snd (create
                          (sample_world 5 (rejects 5 "print failed") (fulfils 5 tt)
                             (fulfils 5 tt))
                          "<h1>hi</h1>" (Some 1%positive)
                          (request_start {[1%positive := empty_options]}))) in
  count_events is_new_ok tr = 1 /\ count_events is_close_issued tr = 1 /\
  count_events is_connect_ok tr = 1 /\ count_events is_client_close tr = 1 /\
  count_events is_launch_ok tr = 1 /\ count_events is_kill_issued tr = 1.
Proof. vm_compute. repeat split; reflexivity. Qed.

(** ** Timing *)

Lemma opts_inv my dl h o0 s :
  Inv my dl h o0 s -> opts my s = set_canceled (fired dl (clock s)) o0.
Proof.
  intros [_ _ Hc Hf _]. unfold config in Hc.
  destruct (opts my s), o0. simpl in *. injection Hc. intros. subst.
  reflexivity.
Qed.

Section Timing.
Variables (my : loc) (dl : option nat) (h : gmap loc CreateOptions)
  (o0 : CreateOptions).

Local Abbreviation staged' := (staged my dl h o0).
Local Abbreviation checked' := (checked my dl h o0).

Lemma staged_ret {A : Type} (a : A) : staged' 0 a (ret a).
Proof. intros s HI. apply wp_ret. split; [exact HI|]. right. split; [reflexivity | lia]. Qed.

Lemma staged_emit e : staged' 0 tt (emit e).
Proof.
  intros s HI. apply wp_emit. split; [apply Inv_log, HI|]. right.
  split; [reflexivity | simpl; lia].
Qed.

Lemma staged_sleep d : staged' d tt (sleep d).
Proof.
  intros s HI. apply wp_sleep. split; [apply Inv_elapse, HI|]. right.
  split; [reflexivity | apply clock_elapse].
Qed.

Lemma staged_bind {A B : Type} d1 (a1 : A) d2 (a2 : B) (m : M A) (f : A -> M B) :
  staged' d1 a1 m -> staged' d2 a2 (f a1) -> staged' (d1 + d2) a2 (bind m f).
Proof.
  intros Hm Hf s HI. apply wp_bind. eapply wp_wand; [apply Hm, HI|].
  intros r s1 [HI1 [(-> & Hfi & Hc)|(-> & Hc)]].
  - split; [exact HI1|]. left. repeat split; [exact Hfi | lia].
  - eapply wp_wand; [apply Hf, HI1|].
    intros r s2 [HI2 [(-> & Hfi & Hc2)|(-> & Hc2)]]; (split; [exact HI2|]).
    + left. repeat split; [exact Hfi | lia].
    + right. split; [reflexivity | lia].
Qed.

Lemma staged_settle {A : Type} c (p : Promise A) v :
  settles p = inr v -> staged' 0 v (settle c p).
Proof.
  intros Hp. unfold settle. rewrite Hp.
  apply (staged_bind 0 tt 0 v); [apply staged_emit | apply staged_ret].
Qed.

Lemma staged_eq {A : Type} d d' (a : A) m :
  staged' d a m -> d = d' -> staged' d' a m.
Proof. intros H <-. exact H. Qed.

Lemma staged_call {A : Type} c (p : Promise A) v :
  settles p = inr v -> staged' (latency p) v (call c p).
Proof.
  intros Hp. unfold call, await.
  apply (staged_bind 0 tt (latency p) v); [apply staged_emit|].
  eapply staged_eq;
    [apply (staged_bind (latency p) tt 0 v);
     [apply staged_sleep | apply staged_settle, Hp] | lia].
Qed.

Lemma staged_await_all2 {A B : Type} c1 (p1 : Promise A) c2 (p2 : Promise B) v1 v2 :
  settles p1 = inr v1 -> settles p2 = inr v2 ->
  staged' (Nat.max (latency p1) (latency p2)) (v1, v2) (await_all2 c1 p1 c2 p2).
Proof.
  intros H1 H2. unfold await_all2. destruct (latency p1 <=? latency p2) eqn:E.
  - apply Nat.leb_le in E. eapply staged_eq.
    + eapply staged_bind; [apply staged_sleep|].
      eapply staged_bind; [apply staged_settle, H1|].
      eapply staged_bind; [apply staged_sleep|].
      eapply staged_bind; [apply staged_settle, H2 | apply staged_ret].
    + lia.
  - apply Nat.leb_gt in E. eapply staged_eq.
    + eapply staged_bind; [apply staged_sleep|].
      eapply staged_bind; [apply staged_settle, H2|].
      eapply staged_bind; [apply staged_sleep|].
      eapply staged_bind; [apply staged_settle, H1 | apply staged_ret].
    + lia.
Qed.

Lemma checked_throwIfCanceled : checked' 0 tt (throwIfCanceled my).
Proof.
  intros s HI. eapply wp_throwIfCanceled; [exact HI | |]; intros Hf;
    (split; [apply Inv_log, HI|]).
  - left. repeat split; [exact Hf | simpl; lia].
  - right. repeat split; [simpl; lia | exact Hf].
Qed.

Lemma checked_staged {A : Type} d (a : A) m : checked' d a m -> staged' d a m.
Proof.
  intros Hm s HI. eapply wp_wand; [apply Hm, HI|].
  intros r s' [HI' [H|(-> & Hc & _)]]; (split; [exact HI'|]); auto.
Qed.

(** A computation that ends with a checked one is checked. *)
Lemma checked_bind {A B : Type} d1 (a1 : A) d2 (a2 : B) (m : M A) (f : A -> M B) :
  staged' d1 a1 m -> checked' d2 a2 (f a1) -> checked' (d1 + d2) a2 (bind m f).
Proof.
  intros Hm Hf s HI. apply wp_bind. eapply wp_wand; [apply Hm, HI|].
  intros r s1 [HI1 [(-> & Hfi & Hc)|(-> & Hc)]].
  - split; [exact HI1|]. left. repeat split; [exact Hfi | lia].
  - eapply wp_wand; [apply Hf, HI1|].
    intros r s2 [HI2 [(-> & Hfi & Hc2)|(-> & Hc2 & Hnf)]]; (split; [exact HI2|]).
    + left. repeat split; [exact Hfi | lia].
    + right. repeat split; [lia | exact Hnf].
Qed.

(** Returning a value after a checked computation. *)
Lemma checked_then_ret {A B : Type} d (a : A) (b : B) (m : M A) :
  checked' d a m -> checked' d b (bind m (fun _ => ret b)).
Proof.
  intros Hm s HI. apply wp_bind. eapply wp_wand; [apply Hm, HI|].
  intros r s1 [HI1 [(-> & Hfi & Hc)|(-> & Hc & Hnf)]]; (split; [exact HI1|]).
  - left. auto.
  - right. auto.
Qed.

(** Reading [myOptions]: the flag is the only field that may differ. *)
Lemma staged_deref {A : Type} d (a : A) (f : CreateOptions -> M A) :
  (forall b, staged' d a (f (set_canceled b o0))) ->
  staged' d a (bind (deref my) f).
Proof.
  intros Hf s HI. apply wp_bind, wp_deref. rewrite (opts_inv _ _ _ _ _ HI).
  apply Hf, HI.
Qed.

Lemma checked_deref {A : Type} d (a : A) (f : CreateOptions -> M A) :
  (forall b, checked' d a (f (set_canceled b o0))) ->
  checked' d a (bind (deref my) f).
Proof.
  intros Hf s HI. apply wp_bind, wp_deref. rewrite (opts_inv _ _ _ _ _ HI).
  apply Hf, HI.
Qed.

Lemma checked_try_finally_emit {A : Type} d (a : A) (body : M A) e :
  checked' d a body -> checked' d a (try_finally body (emit e)).
Proof.
  intros Hb s HI. apply wp_try_finally. eapply wp_wand; [apply Hb, HI|].
  intros r s1 [HI1 H]. apply wp_emit. split; [apply Inv_log, HI1|]. exact H.
Qed.
End Timing.

Lemma waiting_Some {A : Type} (p : Promise A) d :
  waiting p = Some d -> d = latency p /\ exists v, settles p = inr v.
Proof.
  unfold waiting. destruct (settles p) as [m|v]; [discriminate|].
  intros [= <-]. eauto.
Qed.

Lemma fulfilled_Some {A : Type} (p : Promise A) v :
  fulfilled p = Some v -> settles p = inr v.
Proof. unfold fulfilled. destruct (settles p); [discriminate|]. congruence. Qed.

Section TimingOfGenerate.
Variables (my : loc) (dl : option nat) (h : gmap loc CreateOptions)
  (o0 : CreateOptions).

Lemma checked_eq {A : Type} d d' (a : A) m :
  checked my dl h o0 d a m -> d = d' -> checked my dl h o0 d' a m.
Proof. intros H <-. exact H. Qed.

Lemma staged_guard : staged my dl h o0 0 tt (throwIfCanceled my).
Proof. apply checked_staged, checked_throwIfCanceled. Qed.

Lemma beforeNavigate_checked client d :
  before_time client o0 = Some d ->
  checked my dl h o0 d tt (beforeNavigate my client).
Proof.
  unfold before_time. intros H.
  destruct (if truthy_flag (clearCache o0) then _ else _) as [a|] eqn:Ea; [|discriminate].
  destruct (waiting (Page_enable client)) as [b|] eqn:Eb; [|discriminate].
  destruct (waiting (Runtime_enable client)) as [c|] eqn:Ec; [|discriminate].
  destruct (match cookies o0 with Some _ => _ | None => _ end) as [k|] eqn:Ek;
    [|discriminate].
  injection H as <-.
  apply waiting_Some in Eb as (-> & [] & Hb), Ec as (-> & [] & Hc).
  unfold beforeNavigate. eapply checked_eq.
  - eapply checked_bind; [apply staged_guard|].
    apply checked_deref. intros f1. simpl.
    eapply checked_bind.
    { instantiate (1 := tt). instantiate (1 := a).
      destruct (truthy_flag (clearCache o0)).
      - apply waiting_Some in Ea as (-> & [] & Ha). apply staged_call, Ha.
      - injection Ea as <-. apply staged_ret. }
    eapply checked_bind; [apply staged_emit|].
    eapply checked_bind; [apply staged_emit|].
    eapply checked_bind; [apply (staged_await_all2 _ _ _ _ _ _ _ _ _ _ Hb Hc)|].
    apply checked_deref. intros f2. simpl.
    eapply checked_bind.
    { instantiate (1 := tt). instantiate (1 := 0).
      destruct (runtimeConsoleHandler o0).
      - apply (staged_bind _ _ _ _ 0 tt 0 tt); [apply staged_guard | apply staged_emit].
      - apply staged_ret. }
    apply checked_deref. intros f3. simpl.
    eapply checked_bind.
    { instantiate (1 := tt). instantiate (1 := 0).
      destruct (runtimeExceptionHandler o0).
      - apply (staged_bind _ _ _ _ 0 tt 0 tt); [apply staged_guard | apply staged_emit].
      - apply staged_ret. }
    apply checked_deref. intros f4. simpl.
    eapply checked_bind.
    { instantiate (1 := tt). instantiate (1 := k).
      destruct (cookies o0) as [cs|].
      - apply waiting_Some in Ek as (-> & [] & Hk).
        apply (staged_bind _ _ _ _ 0 tt _ tt); [apply staged_guard | apply staged_call, Hk].
      - injection Ek as <-. apply staged_ret. }
    apply checked_throwIfCanceled.
  - lia.
Qed.

Lemma afterNavigate_checked client d :
  after_time client o0 = Some d ->
  checked my dl h o0 d tt (afterNavigate my client).
Proof.
  unfold after_time, afterNavigate. intros H.
  apply checked_deref. intros f1. simpl. eapply checked_eq.
  - eapply checked_bind; [|apply checked_throwIfCanceled].
    instantiate (1 := tt). instantiate (1 := d).
    destruct (completionTrigger o0) as [trigger|]; [|injection H as <-; apply staged_ret].
    destruct (settles (wait trigger client)) as [msg|w] eqn:Ew; [discriminate|].
    eapply staged_eq.
    + eapply staged_bind; [apply staged_guard|].
      eapply staged_bind; [apply staged_call, Ew|].
      instantiate (1 := 0).
      destruct w as [r|]; [|apply staged_ret].
      destruct (truthy_object (exceptionDetails r)); [discriminate | apply staged_ret].
    + destruct w as [r|]; [destruct (truthy_object _); [discriminate|]|];
        injection H as <-; lia.
  - lia.
Qed.

Lemma generate_checked W html tab g pdf :
  flag_blind W ->
  generate_course W html o0 tab = Some (g, pdf) ->
  checked my dl h o0 g {| data := pdf |} (generate W html my tab).
Proof.
  intros Hblind. unfold generate_course. intros H.
  destruct (fulfilled (CDP W o0 tab)) as [client|] eqn:Ecl; [|discriminate].
  destruct (before_time client o0) as [b|] eqn:Eb; [|discriminate].
  destruct (waiting (Page_navigate client (navigation_url html))) as [n|] eqn:En;
    [|discriminate].
  destruct (waiting (Page_loadEventFired client)) as [l|] eqn:El; [|discriminate].
  destruct (after_time client o0) as [a|] eqn:Ea; [|discriminate].
  destruct (fulfilled (Page_printToPDF client (printOptions o0))) as [pdf'|] eqn:Ep;
    [|discriminate].
  injection H as <- <-.
  apply fulfilled_Some in Ecl, Ep.
  apply waiting_Some in En as (-> & [] & Hn), El as (-> & [] & Hl).
  unfold generate. eapply checked_eq.
  - eapply checked_bind; [apply staged_guard|].
    apply checked_deref. intros f1. simpl.
    destruct (Hblind o0 f1) as (_ & -> & _).
    eapply checked_bind; [apply staged_call, Ecl|].
    apply checked_try_finally_emit.
    eapply checked_bind; [apply checked_staged, beforeNavigate_checked, Eb|].
    eapply checked_bind; [apply staged_emit|].
    eapply checked_bind; [apply staged_emit|].
    eapply checked_bind; [apply (staged_await_all2 _ _ _ _ _ _ _ _ _ _ Hn Hl)|].
    eapply checked_bind; [apply checked_staged, afterNavigate_checked, Ea|].
    apply checked_deref. intros f2. simpl.
    eapply checked_bind; [apply staged_call, Ep|].
    eapply checked_then_ret, checked_throwIfCanceled.
  - lia.
Qed.
End TimingOfGenerate.

Lemma session_course_blind W html o b chrome :
  flag_blind W ->
  session_course W html (set_canceled b o) chrome = session_course W html o chrome.
Proof.
  intros Hblind. destruct (Hblind o b) as (H1 & H2 & H3).
  unfold session_course. rewrite H1.
  destruct (fulfilled (CDP_New W o)) as [tab|]; [|reflexivity].
  rewrite H3. unfold generate_course. rewrite H2. reflexivity.
Qed.

Lemma create_session_decided W html my dl h o0 chrome g pdf s :
  flag_blind W ->
  session_course W html o0 chrome = Some (g, pdf) ->
  Inv my dl h o0 s ->
  wp (create_session W html my chrome)
    (fun r s' =>
       r = if fired dl (clock s + g) then Throw Timeout
           else Ok {| data := pdf |}) s.
Proof.
  intros Hblind H HI. unfold session_course in H.
  destruct (fulfilled (CDP_New W o0)) as [tab|] eqn:Et; [|discriminate].
  destruct (generate_course W html o0 tab) as [[g' pdf']|] eqn:Eg; [|discriminate].
  destruct (fulfilled (CDP_Close W o0 (id tab))) as [[]|] eqn:Ec; [|discriminate].
  destruct (match chrome with Some c => fulfilled (kill c) | None => Some tt end)
    as [[]|] eqn:Ek; [|discriminate].
  injection H as <- <-. apply fulfilled_Some in Et, Ec.
  unfold create_session. apply wp_try_finally, wp_bind, wp_deref.
  rewrite (opts_inv _ _ _ _ _ HI). destruct (Hblind o0 (fired dl (clock s))) as (-> & _ & _).
  apply wp_bind, wp_call; [intros msg Hm; congruence|].
  intros tab' Ht. rewrite Et in Ht. injection Ht as <-.
  apply wp_try_finally.
  eapply wp_wand;
    [apply (generate_checked my dl h o0 W html tab g' pdf' Hblind Eg); auto with inv|].
  intros r s2 [HI2 Hr]. autorewrite with st in Hr.
  assert (Hres : r = if fired dl (clock s + (latency (CDP_New W o0) + g'))
                     then Throw Timeout else Ok {| data := pdf' |}).
  { destruct Hr as [(-> & Hf & Hc)|(-> & Hc & Hf)].
    - rewrite (fired_mono dl (clock s2)); [reflexivity | lia | exact Hf].
    - replace (clock s + (latency (CDP_New W o0) + g')) with (clock s2) by lia.
      rewrite Hf. reflexivity. }
  clear Hr. apply wp_bind, wp_deref. rewrite (opts_inv _ _ _ _ _ HI2).
  destruct (Hblind o0 (fired dl (clock s2))) as (_ & _ & ->).
  apply wp_call; [intros msg Hm; congruence|]. intros [] _.
  destruct chrome as [c|]; [|apply wp_ret; exact Hres].
  apply fulfilled_Some in Ek. apply wp_call; [intros msg Hm; congruence|].
  intros [] _. exact Hres.
Qed.

(** With libraries that do not read the flag, a request in which every
    call fulfils is decided by the clock alone: it rejects with the
    timeout error if the timer is due by the time the last guard of
    [generate] runs, and resolves with the document otherwise. *)
Lemma create_decided W html options h g pdf :
  flag_blind W ->
  uninterrupted W html (caller_options h options) = Some (g, pdf) ->
  fst (create W html options (request_start h)) =
  if fired (deadline (caller_options h options)) g then Throw Timeout
  else Ok {| data := pdf |}.
Proof.
  intros Hblind H. set (oc := caller_options h options) in *.
  change (wp (create W html options)
            (fun r _ => r = if fired (deadline oc) g then Throw Timeout
                            else Ok {| data := pdf |}) (request_start h)).
  unfold create. apply wp_bind.
  eapply wp_wand; [apply create_entry_run|]. fold oc.
  unfold uninterrupted in H. intros r s. destruct (launches oc).
  - intros [Hc Hs].
    destruct (fulfilled (launch_promise W oc)) as [c|] eqn:El; [|discriminate].
    apply fulfilled_Some in El. rewrite El in Hs. destruct Hs as (-> & HI & _).
    rewrite session_course_blind in H by exact Hblind.
    destruct (session_course W html (set_port (chrome_port c) oc) (Some c))
      as [[g' pdf']|] eqn:Es; [|discriminate].
    injection H as <- <-. simpl.
    eapply wp_wand; [apply (create_session_decided _ _ _ _ _ _ _ _ _ _ Hblind Es HI)|].
    intros r s'. rewrite Hc. intros ->. reflexivity.
  - intros (-> & Hc & HI & _). rewrite session_course_blind in H by exact Hblind.
    simpl. eapply wp_wand; [apply (create_session_decided _ _ _ _ _ _ _ _ _ _ Hblind H HI)|].
    intros r s'. rewrite Hc. intros ->. reflexivity.
Qed.

Lemma no_print_after_cancel_split tr pre post po :
  no_print_after_cancel tr = true ->
  tr = pre ++ Guard true :: post ->
  ~ In (Issued (PrintToPDF po)) post.
Proof.
  intros H -> Hin. revert H. induction pre as [|a pre IH]; simpl.
  - intros H. apply negb_true_iff in H.
    apply (existsb_false_not_In _ _ _ H) in Hin. discriminate.
  - destruct (is_guard_true a); [|exact IH].
    intros H. apply negb_true_iff in H. rewrite existsb_app in H.
    apply orb_false_elim in H as [_ H]. simpl in H.
    apply (existsb_false_not_In _ _ _ H) in Hin. discriminate.
Qed.

Lemma timer_delay_le T : (0 < T)%Z -> (Z.of_nat (timer_delay T) <= T)%Z.
Proof.
  intros HT. unfold timer_delay.
  destruct ((1 <=? T)%Z && (T <=? 2147483647)%Z); lia.
Qed.

(** C6 (amended). Once a guard has seen the cancellation flag set, no
    print-to-PDF call is issued.  And for a timeout [T > 0]: when the
    libraries do not read the flag, every call of the request fulfils
    and the trigger reports no failure, and the time from the start of
    the request to the last guard of [generate] exceeds [T], [create]
    rejects with the timeout error. *)
Theorem timeout_cancels_generation W html options h :
  let oc := caller_options h options in
  let r := fst (create W html options (request_start h)) in
  let s := snd (create W html options (request_start h)) in
  (forall pre post po,
     trace s = pre ++ Guard true :: post ->
     ~ In (Issued (PrintToPDF po)) post) /\
  (forall T g pdf,
     timeout oc = Some T -> (0 < T)%Z ->
     flag_blind W ->
     uninterrupted W html oc = Some (g, pdf) ->
     (T < Z.of_nat g)%Z ->
     r = Throw Timeout).
Proof.
  intros oc r s. split.
  - intros pre post po E.
    destruct (create_guards W html options h) as [_ (Hn & _)]. fold s in Hn.
    exact (no_print_after_cancel_split _ _ _ po Hn E).
  - intros T g pdf HT Hpos Hblind Hu Hg. unfold r.
    rewrite (create_decided W html options h g pdf Hblind Hu). fold oc.
    unfold deadline. rewrite HT.
    destruct (0 <=? T)%Z eqn:E0; [|apply Z.leb_gt in E0; lia]. simpl.
    pose proof (timer_delay_le T Hpos).
    destruct (timer_delay T <=? g) eqn:E; [reflexivity|].
    apply Nat.leb_gt in E. lia.
Qed.

Lemma steady_world_flag_blind d : flag_blind (steady_world d).
Proof. intros o b. repeat split. Qed.

Lemma timeout_cancels_generation_witness :
  fst (create (steady_world 5) "<h1>hi</h1>" (Some 1%positive)
         (request_start {[1%positive := with_timeout 20 empty_options]}))
  = Throw Timeout.
Proof.
  apply (proj2 (timeout_cancels_generation (steady_world 5) "<h1>hi</h1>"
                  (Some 1%positive) {[1%positive := with_timeout 20 empty_options]})
           20%Z 30 "JVBERi0=").
  - reflexivity.
  - lia.
  - apply steady_world_flag_blind.
  - vm_compute. reflexivity.
  - lia.
Defined.

(** C6, as stated, fails in two ways.  With a timeout of 32 ms and
    calls of 5 ms each, the last guard runs at 30 ms, the timer fires
    while [CDP.Close] is pending, and [create] resolves at 40 ms.  With
    a timeout of 1 ms, the timer fires during the launch; [CDP.New] is
    called without a guard, and when it rejects [create] rejects with
    its error. *)
Lemma late_timeout_is_not_reported :
  let run1 := create (steady_world 5) "<h1>hi</h1>" (Some 1%positive)
                (request_start {[1%positive := with_timeout 32 empty_options]}) in
  let W2 := {| launch := launch (steady_world 5);
               CDP_New := fun _ => rejects 5 "no tab";
               CDP := CDP (steady_world 5);
               CDP_Close := CDP_Close (steady_world 5) |} in
  let run2 := create W2 "<h1>hi</h1>" (Some 1%positive)
                (request_start {[1%positive := with_timeout 1 empty_options]}) in
  (fst run1 = Ok {| data := "JVBERi0=" |} /\ clock (snd run1) = 40 /\
   _canceled (opts 2%positive (snd run1)) = Some true) /\
  (fst run2 = Throw (Rejection "no tab") /\ clock (snd run2) = 15 /\
   _canceled (opts 2%positive (snd run2)) = Some true).
Proof. vm_compute. repeat split; reflexivity. Qed.
